(** * EC2 worker: the message-to-execution pipeline

    A shallow embedding of the queue worker (allowlist gate, message parser,
    process executor, response publisher and message lifecycle) and the
    properties of its design specification.

    JavaScript strings are sequences of UTF-16 code units; they are modelled
    as lists of code units, so that the whitespace class of [trim] and of the
    regular expression [\s] is the one of the language and not an ASCII
    approximation. *)

From Stdlib Require Import List NArith ZArith Bool Ascii String Lia.
From Stdlib Require Import DecimalFacts DecimalN.
Import ListNotations.

(** ** Strings *)

Definition char16 := N.
Definition jsstring := list char16.

(** An ASCII literal as a JavaScript string. *)
Definition lit (s : string) : jsstring :=
  List.map N_of_ascii (list_ascii_of_string s).

Definition dquote : char16 := 34%N.
Definition slash : char16 := 47%N.
Definition rbracket : char16 := 93%N.

Fixpoint jsstring_eqb (a b : jsstring) : bool :=
  match a, b with
  | [], [] => true
  | x :: a', y :: b' => N.eqb x y && jsstring_eqb a' b'
  | _, _ => false
  end.

(** The class [\s] of regular expressions, which is also what
    [String.prototype.trim] strips: WhiteSpace and LineTerminator. *)
Definition is_ws (c : char16) : bool :=
  ((9 <=? c) && (c <=? 13)         (* TAB LF VT FF CR *)
   || (c =? 32)                    (* SPACE *)
   || (c =? 160)                   (* NO-BREAK SPACE *)
   || (c =? 5760)                  (* OGHAM SPACE MARK *)
   || ((8192 <=? c) && (c <=? 8202)) (* EN QUAD .. HAIR SPACE *)
   || (c =? 8232) || (c =? 8233)   (* LINE / PARAGRAPH SEPARATOR *)
   || (c =? 8239) || (c =? 8287)   (* NARROW NBSP, MEDIUM MATH SPACE *)
   || (c =? 12288)                 (* IDEOGRAPHIC SPACE *)
   || (c =? 65279))%N.             (* ZERO WIDTH NO-BREAK SPACE (BOM) *)

Fixpoint ltrim (s : jsstring) : jsstring :=
  match s with
  | c :: s' => if is_ws c then ltrim s' else s
  | [] => []
  end.

Fixpoint rtrim (s : jsstring) : jsstring :=
  match s with
  | [] => []
  | c :: s' =>
      match rtrim s' with
      | [] => if is_ws c then [] else [c]
      | r => c :: r
      end
  end.

(** [s.trim()] *)
Definition trim (s : jsstring) : jsstring := rtrim (ltrim s).

(** Prepends a code unit to the first segment of a split in progress. *)
Definition push_front (c : char16) (parts : list jsstring) : list jsstring :=
  match parts with
  | seg :: rest => (c :: seg) :: rest
  | [] => [[c]]
  end.

(** [s.split(sep)] for a one-character separator: the result always has at
    least one element, and an empty segment is kept wherever two separators
    touch or one sits at an end of the string. *)
Fixpoint split_char (sep : char16) (s : jsstring) : list jsstring :=
  match s with
  | [] => [[]]
  | c :: s' =>
      if N.eqb c sep then [] :: split_char sep s'
      else push_front c (split_char sep s')
  end.

(** [s.split(/\s+/)]: the string is cut at every maximal run of whitespace.
    A run at the start leaves an empty first element and a run at the end an
    empty last one; the empty string gives the one-element array [[""]]. *)
Fixpoint split_ws (s : jsstring) : list jsstring :=
  match s with
  | [] => [[]]
  | c :: s' =>
      if is_ws c then
        match s' with
        | c' :: _ => if is_ws c' then split_ws s' else [] :: split_ws s'
        | [] => [[]; []]
        end
      else push_front c (split_ws s')
  end.

Definition is_high_surrogate (c : char16) : bool :=
  ((55296 <=? c) && (c <=? 56319))%N.
Definition is_low_surrogate (c : char16) : bool :=
  ((56320 <=? c) && (c <=? 57343))%N.

(** The code points of a string, as the string iterator yields them: a
    surrogate pair stays together. *)
Fixpoint code_points (s : jsstring) : list jsstring :=
  match s with
  | [] => []
  | c :: s' =>
      if is_high_surrogate c then
        match s' with
        | d :: s'' =>
            if is_low_surrogate d then [c; d] :: code_points s''
            else [c] :: code_points s'
        | [] => [[c]]
        end
      else [c] :: code_points s'
  end.

(** What follows the prefix [p] in [s], when [s] starts with [p]. *)
Fixpoint strip_prefix (p s : jsstring) : option jsstring :=
  match p, s with
  | [], _ => Some s
  | a :: p', b :: s' => if N.eqb a b then strip_prefix p' s' else None
  | _ :: _, [] => None
  end.

(** [parts.slice(1)] *)
Definition slice1 {A : Type} (parts : list A) : list A := List.tl parts.

(** [a || b] on a possibly undefined string: the empty string and
    [undefined] are both falsy. *)
Definition or_string (a : option jsstring) (b : jsstring) : jsstring :=
  match a with
  | Some (c :: r) => c :: r
  | _ => b
  end.

(** ** JSON values

    What [JSON.parse] can return.  A number keeps the decimal literal it was
    read from, [(-1)^neg * mant * 10^exp10]: the worker never computes with a
    number, it only tests whether one is zero.  An object keeps its members in
    source order, duplicates included; a property read takes the last. *)

#[warnings="-register-all"]
Inductive jsvalue : Type :=
| JNull
| JBool (b : bool)
| JNum (neg : bool) (mant : N) (exp10 : Z)
| JStr (s : jsstring)
| JArr (elements : list jsvalue)
| JObj (members : list (jsstring * jsvalue)).

(** Whether the decimal [mant * 10^exp10] becomes [0] when rounded to the
    nearest binary64: it is zero, or at most half the least subnormal
    [2^-1074] (the tie goes to the even neighbour, which is zero). *)
Definition rounds_to_zero (mant : N) (exp10 : Z) : bool :=
  (mant =? 0)%N
  || ((exp10 <? 0)%Z
      && (Z.of_N mant * 2 ^ 1075 <=? 10 ^ (- exp10))%Z).

(** ToBoolean, on a possibly undefined value. *)
Definition truthy (v : option jsvalue) : bool :=
  match v with
  | None => false
  | Some JNull => false
  | Some (JBool b) => b
  | Some (JNum _ m e) => negb (rounds_to_zero m e)
  | Some (JStr s) => match s with [] => false | _ => true end
  | Some (JArr _) => true
  | Some (JObj _) => true
  end.

(** The own property [key] of a parsed object: the last member of that
    name. *)
Fixpoint own_property (key : jsstring) (members : list (jsstring * jsvalue))
  : option jsvalue :=
  match members with
  | [] => None
  | (k, v) :: rest =>
      match own_property key rest with
      | Some v' => Some v'
      | None => if jsstring_eqb k key then Some v else None
      end
  end.

(** [v.key] for a key that is no array index and that no prototype defines
    ([command], [args], [cwd]): reading it off [null] raises a TypeError
    (the outer [None]); primitives and arrays answer [undefined]. *)
Definition get_property (v : jsvalue) (key : jsstring)
  : option (option jsvalue) :=
  match v with
  | JNull => None
  | JObj members => Some (own_property key members)
  | _ => Some None
  end.

(** ** A JSON codec

    [JSON.parse] is a parameter of the worker's model below; this decoder of
    the JSON grammar (ECMA-404) is what the model is run with on concrete
    message bodies, and it plays the consumer of the response body. *)

Module JSON.

Definition is_json_ws (c : char16) : bool :=
  ((c =? 32) || (c =? 9) || (c =? 10) || (c =? 13))%N.

Fixpoint skip_ws (s : jsstring) : jsstring :=
  match s with
  | c :: s' => if is_json_ws c then skip_ws s' else s
  | [] => []
  end.

(** *** Numbers *)

Definition digit_of_char (c : char16) : option (Decimal.uint -> Decimal.uint) :=
  match c with
  | 48 => Some Decimal.D0 | 49 => Some Decimal.D1 | 50 => Some Decimal.D2
  | 51 => Some Decimal.D3 | 52 => Some Decimal.D4 | 53 => Some Decimal.D5
  | 54 => Some Decimal.D6 | 55 => Some Decimal.D7 | 56 => Some Decimal.D8
  | 57 => Some Decimal.D9
  | _ => None
  end%N.

(** The longest run of digits at the head of [s], and what follows it. *)
Fixpoint read_digits (s : jsstring) : Decimal.uint * jsstring :=
  match s with
  | [] => (Decimal.Nil, [])
  | c :: s' =>
      match digit_of_char c with
      | Some d => let (u, r) := read_digits s' in (d u, r)
      | None => (Decimal.Nil, s)
      end
  end.

Definition is_nil (u : Decimal.uint) : bool :=
  match u with Decimal.Nil => true | _ => false end.

(** The integer part: a single [0], or a run of digits that does not start
    with [0]. *)
Definition read_int (s : jsstring) : option (Decimal.uint * jsstring) :=
  match s with
  | 48%N :: r => Some (Decimal.D0 Decimal.Nil, r)
  | _ => let (u, r) := read_digits s in
         if is_nil u then None else Some (u, r)
  end.

Definition read_frac (s : jsstring) : option (Decimal.uint * jsstring) :=
  match s with
  | 46%N :: r =>                                   (* . *)
      let (u, r') := read_digits r in
      if is_nil u then None else Some (u, r')
  | _ => Some (Decimal.Nil, s)
  end.

Definition read_exp (s : jsstring) : option (Z * jsstring) :=
  match s with
  | c :: r =>
      if ((c =? 101) || (c =? 69))%N then            (* e E *)
        let (sign, r1) :=
          match r with
          | 45%N :: r1 => (true, r1)                 (* - *)
          | 43%N :: r1 => (false, r1)                (* + *)
          | _ => (false, r)
          end in
        let (u, r2) := read_digits r1 in
        if is_nil u then None
        else let e := Z.of_N (N.of_uint u) in
             Some (if sign then (- e)%Z else e, r2)
      else Some (0%Z, s)
  | [] => Some (0%Z, s)
  end.

Definition parse_number (s : jsstring) : option (jsvalue * jsstring) :=
  let (neg, s1) :=
    match s with
    | 45%N :: r => (true, r)
    | _ => (false, s)
    end in
  match read_int s1 with
  | None => None
  | Some (i, s2) =>
      match read_frac s2 with
      | None => None
      | Some (f, s3) =>
          match read_exp s3 with
          | None => None
          | Some (e, s4) =>
              Some (JNum neg (N.of_uint (Decimal.app i f))
                      (e - Z.of_nat (Decimal.nb_digits f)), s4)
          end
      end
  end.

(** *** Strings *)

Definition hex_val (c : char16) : option N :=
  if ((48 <=? c) && (c <=? 57))%N then Some (c - 48)%N
  else if ((97 <=? c) && (c <=? 102))%N then Some (c - 87)%N
  else if ((65 <=? c) && (c <=? 70))%N then Some (c - 55)%N
  else None.

Definition hex4 (a b c d : char16) : option char16 :=
  match hex_val a, hex_val b, hex_val c, hex_val d with
  | Some x, Some y, Some z, Some w => Some (((x * 16 + y) * 16 + z) * 16 + w)%N
  | _, _, _, _ => None
  end.

(** One more character in front of what the rest of a string decodes to. *)
Definition keep (c : char16) (r : option (jsstring * jsstring))
  : option (jsstring * jsstring) :=
  match r with
  | Some (t, rest) => Some (c :: t, rest)
  | None => None
  end.

(** The characters of a string after its opening quote, up to the closing
    one; control characters must be escaped. *)
Fixpoint parse_string_body (s : jsstring) : option (jsstring * jsstring) :=
  match s with
  | [] => None
  | c :: r =>
      if (c =? 34)%N then Some ([], r)
      else if (c =? 92)%N then
        match r with
        | e :: r1 =>
            match e with
            | 34 => keep 34 (parse_string_body r1)        (* quote *)
            | 92 => keep 92 (parse_string_body r1)        (* backslash *)
            | 47 => keep 47 (parse_string_body r1)        (* \/ *)
            | 98 => keep 8 (parse_string_body r1)         (* \b *)
            | 102 => keep 12 (parse_string_body r1)       (* \f *)
            | 110 => keep 10 (parse_string_body r1)       (* \n *)
            | 114 => keep 13 (parse_string_body r1)       (* \r *)
            | 116 => keep 9 (parse_string_body r1)        (* \t *)
            | 117 =>                                      (* \uXXXX *)
                match r1 with
                | h1 :: h2 :: h3 :: h4 :: r2 =>
                    match hex4 h1 h2 h3 h4 with
                    | Some u => keep u (parse_string_body r2)
                    | None => None
                    end
                | _ => None
                end
            | _ => None
            end%N
        | [] => None
        end
      else if (c <? 32)%N then None
      else keep c (parse_string_body r)
  end.

(** *** Values

    One level of each of the three mutually recursive productions, the
    decoders of the levels below being given. *)

(** What follows the character [c] at the head of [s], whitespace apart. *)
Definition expect (c : char16) (s : jsstring) : option jsstring :=
  match skip_ws s with
  | d :: r => if N.eqb d c then Some r else None
  | [] => None
  end.

Definition value_step
  (members : jsstring -> option (list (jsstring * jsvalue) * jsstring))
  (elements : jsstring -> option (list jsvalue * jsstring))
  (s : jsstring) : option (jsvalue * jsstring) :=
  match skip_ws s with
  | [] => None
  | c :: r =>
      if (c =? 123)%N then                             (* { *)
        match expect 125%N r with                      (* } *)
        | Some r' => Some (JObj [], r')
        | None =>
            match members r with
            | Some (m, r') => Some (JObj m, r')
            | None => None
            end
        end
      else if (c =? 91)%N then                         (* [ *)
        match expect 93%N r with                       (* ] *)
        | Some r' => Some (JArr [], r')
        | None =>
            match elements r with
            | Some (vs, r') => Some (JArr vs, r')
            | None => None
            end
        end
      else if (c =? 34)%N then
        match parse_string_body r with
        | Some (t, r') => Some (JStr t, r')
        | None => None
        end
      else
        match strip_prefix (lit "true") (c :: r) with
        | Some r' => Some (JBool true, r')
        | None =>
        match strip_prefix (lit "false") (c :: r) with
        | Some r' => Some (JBool false, r')
        | None =>
        match strip_prefix (lit "null") (c :: r) with
        | Some r' => Some (JNull, r')
        | None => parse_number (c :: r)
        end end end
  end.

Definition elements_step
  (value : jsstring -> option (jsvalue * jsstring))
  (elements : jsstring -> option (list jsvalue * jsstring))
  (s : jsstring) : option (list jsvalue * jsstring) :=
  match value s with
  | None => None
  | Some (v, r) =>
      match expect 44%N r with                         (* , *)
      | Some r' =>
          match elements r' with
          | Some (vs, r'') => Some (v :: vs, r'')
          | None => None
          end
      | None =>
          match expect 93%N r with                     (* ] *)
          | Some r' => Some ([v], r')
          | None => None
          end
      end
  end.

Definition members_step
  (value : jsstring -> option (jsvalue * jsstring))
  (members : jsstring -> option (list (jsstring * jsvalue) * jsstring))
  (s : jsstring) : option (list (jsstring * jsvalue) * jsstring) :=
  match expect 34%N s with
  | None => None
  | Some r =>
      match parse_string_body r with
      | None => None
      | Some (k, r1) =>
          match expect 58%N r1 with                    (* : *)
          | None => None
          | Some r2 =>
              match value r2 with
              | None => None
              | Some (v, r3) =>
                  match expect 44%N r3 with            (* , *)
                  | Some r4 =>
                      match members r4 with
                      | Some (m, r5) => Some ((k, v) :: m, r5)
                      | None => None
                      end
                  | None =>
                      match expect 125%N r3 with       (* } *)
                      | Some r4 => Some ([(k, v)], r4)
                      | None => None
                      end
                  end
              end
          end
      end
  end.

Fixpoint parse_value (fuel : nat) (s : jsstring) {struct fuel}
  : option (jsvalue * jsstring) :=
  match fuel with
  | O => None
  | S fuel' => value_step (parse_members fuel') (parse_elements fuel') s
  end

with parse_elements (fuel : nat) (s : jsstring) {struct fuel}
  : option (list jsvalue * jsstring) :=
  match fuel with
  | O => None
  | S fuel' => elements_step (parse_value fuel') (parse_elements fuel') s
  end

with parse_members (fuel : nat) (s : jsstring) {struct fuel}
  : option (list (jsstring * jsvalue) * jsstring) :=
  match fuel with
  | O => None
  | S fuel' => members_step (parse_value fuel') (parse_members fuel') s
  end.

(** [JSON.parse(text)]; [None] stands for the SyntaxError.  A nested call
    of the decoder comes at most two levels after a consumed character, so
    that twice the length of the text is fuel enough
    ([JSONFacts.parse_value_fuel]). *)
Definition parse (text : jsstring) : option jsvalue :=
  match parse_value (2 * List.length text + 2) text with
  | Some (v, r) => match skip_ws r with [] => Some v | _ => None end
  | None => None
  end.

(** *** Serialisation

    [JSON.stringify] of the objects the worker sends: a flat object whose
    members are strings, booleans and integral numbers. *)

Inductive scalar : Type :=
| SStr (s : jsstring)
| SBool (b : bool)
| SInt (z : Z).

Definition hex_digit (n : N) : char16 :=
  if (n <? 10)%N then (48 + n)%N else (87 + n)%N.

(** [\uXXXX], in lower-case hexadecimal. *)
Definition unicode_escape (c : char16) : jsstring :=
  [92; 117; hex_digit ((c / 4096) mod 16); hex_digit ((c / 256) mod 16);
   hex_digit ((c / 16) mod 16); hex_digit (c mod 16)]%N.

Definition quote_one (c : char16) : jsstring :=
  (if c =? 8 then [92; 98]              (* \b *)
   else if c =? 9 then [92; 116]        (* \t *)
   else if c =? 10 then [92; 110]       (* \n *)
   else if c =? 12 then [92; 102]       (* \f *)
   else if c =? 13 then [92; 114]       (* \r *)
   else if c =? 34 then [92; 34]
   else if c =? 92 then [92; 92]
   else if c <? 32 then unicode_escape c
   else [c])%N.

(** The body of QuoteJSONString: a surrogate pair is copied, a surrogate on
    its own is escaped. *)
Fixpoint quote_chars (s : jsstring) : jsstring :=
  match s with
  | [] => []
  | c :: s' =>
      if is_high_surrogate c then
        match s' with
        | d :: s'' =>
            if is_low_surrogate d then c :: d :: quote_chars s''
            else unicode_escape c ++ quote_chars s'
        | [] => unicode_escape c
        end
      else if is_low_surrogate c then unicode_escape c ++ quote_chars s'
      else quote_one c ++ quote_chars s'
  end.

Definition QuoteJSONString (s : jsstring) : jsstring :=
  dquote :: quote_chars s ++ [dquote].

Fixpoint chars_of_uint (u : Decimal.uint) : jsstring :=
  match u with
  | Decimal.Nil => []
  | Decimal.D0 u' => 48 :: chars_of_uint u'
  | Decimal.D1 u' => 49 :: chars_of_uint u'
  | Decimal.D2 u' => 50 :: chars_of_uint u'
  | Decimal.D3 u' => 51 :: chars_of_uint u'
  | Decimal.D4 u' => 52 :: chars_of_uint u'
  | Decimal.D5 u' => 53 :: chars_of_uint u'
  | Decimal.D6 u' => 54 :: chars_of_uint u'
  | Decimal.D7 u' => 55 :: chars_of_uint u'
  | Decimal.D8 u' => 56 :: chars_of_uint u'
  | Decimal.D9 u' => 57 :: chars_of_uint u'
  end%N.

(** Number::toString on an integer: its decimal numeral (what the language
    prints for every integral Number below [10^21] in magnitude). *)
Definition integer_to_string (z : Z) : jsstring :=
  (if (z <? 0)%Z then [45%N] else []) ++ chars_of_uint (N.to_uint (Z.abs_N z)).

Definition stringify_scalar (v : scalar) : jsstring :=
  match v with
  | SStr s => QuoteJSONString s
  | SBool true => lit "true"
  | SBool false => lit "false"
  | SInt z => integer_to_string z
  end.

Definition stringify_member (m : jsstring * scalar) : jsstring :=
  QuoteJSONString (fst m) ++ 58%N :: stringify_scalar (snd m).

Fixpoint stringify_members (ms : list (jsstring * scalar)) : jsstring :=
  match ms with
  | [] => []
  | [m] => stringify_member m
  | m :: rest => stringify_member m ++ 44%N :: stringify_members rest
  end.

(** [JSON.stringify({k1: v1, ..., kn: vn})], members in insertion order. *)
Definition stringify_object (ms : list (jsstring * scalar)) : jsstring :=
  123%N :: stringify_members ms ++ [125%N].

(** A character that ends a member of an object. *)
Definition delimiter (c : char16) : Prop := c = 44%N \/ c = 125%N.

Definition no_digit_ahead (rest : jsstring) : Prop :=
  match rest with
  | c :: _ => digit_of_char c = None
  | [] => True
  end.

(** The value a decoder is expected to give back for a serialised scalar. *)
Definition value_of_scalar (v : scalar) : jsvalue :=
  match v with
  | SStr s => JStr s
  | SBool b => JBool b
  | SInt z => JNum (z <? 0)%Z (Z.abs_N z) 0
  end.

(** A decoder that, when it succeeds, leaves less than it was given. *)
Definition consumes {A : Type} (f : jsstring -> option (A * jsstring)) : Prop :=
  forall s a r, f s = Some (a, r) -> List.length r < List.length s.

Definition member_value (m : jsstring * scalar) : jsstring * jsvalue :=
  (fst m, value_of_scalar (snd m)).

End JSON.


(** ** The worker *)

(** *** Allowlist gate *)

Definition ALLOWLIST : list jsstring :=
  List.map lit
    ["ls"; "grep"; "git"; "cat"; "echo"; "pwd"; "whoami"; "date"; "uname";
     "npm"; "npx"; "bun"]%string.

(** [ALLOWLIST.has(x)]; [undefined] is not a member. *)
Definition ALLOWLIST_has (x : option jsstring) : bool :=
  match x with
  | Some b => List.existsb (jsstring_eqb b) ALLOWLIST
  | None => false
  end.

Definition isCommandAllowed (command : jsstring) : bool :=
  let pathParts := split_char slash command in
  let lastPart :=
    or_string (List.nth_error pathParts (List.length pathParts - 1)) command in
  let baseCommand := List.nth_error (split_ws (trim lastPart)) 0 in
  if ALLOWLIST_has baseCommand then true else false.



(** *** Data *)

(** [interface CommandMessage]; a field that is [undefined] is [None].  The
    fields are typed [string[]] and [string] in the source, but a structured
    message puts there whatever JSON value the sender wrote. *)
Record CommandMessage : Type := {
  command : jsstring;
  args : option jsvalue;
  cwd : option jsvalue
}.

(** The result of [executeCommand]. *)
Record ExecutionResult : Type := {
  success : bool;
  output : jsstring;
  error : option jsstring;
  exitCode : Z
}.

(** What [processMessage] reads of a received message;
    [CorrelationIdAttribute] is
    [MessageAttributes?.CorrelationId?.StringValue]. *)
Record Message : Type := {
  Body : option jsstring;
  ReceiptHandle : option jsstring;
  CorrelationIdAttribute : option jsstring;
  MessageId : option jsstring
}.

Record config : Type := {
  QUEUE_URL : jsstring;
  RESPONSE_QUEUE_NAME : jsstring
}.

(** *** Effects

    The calls the worker makes to the queue service and to [Bun.spawn], in
    the order it makes them. *)

Inductive event : Type :=
| GetQueueUrl (QueueName : jsstring)
| SendMessage (QueueUrl MessageBody CorrelationId : jsstring)
| DeleteMessage (QueueUrl receiptHandle : jsstring)
| Spawn (argv : list jsvalue) (cwdOption : option jsvalue).

Definition history := list event.

(** A thrown value: an [Error] with its message, or anything else with what
    [String] makes of it. *)
Inductive thrown : Type :=
| ErrorObject (message : jsstring)
| OtherValue (shown : jsstring).

Inductive completion (A : Type) : Type :=
| Normal (a : A)
| Throw (e : thrown).
Arguments Normal {A} a.
Arguments Throw {A} e.

(** A child process that ran to its end. *)
Record process_exit : Type := {
  stdout_text : jsstring;
  stderr_text : jsstring;
  exited : Z
}.

(** TypeErrors the language raises by itself in the worker. *)
Inductive type_error : Type :=
| NotIterable
| NotAFunction
| NoPrimitiveValue.

(** The answers of the outside world; each may depend on all that happened
    before the call.  A call to the queue service resolves or rejects;
    [Bun.spawn] followed by the reading of both streams and of the exit code
    either throws somewhere or yields the three values.  A call that never
    settles, such as a child process that never exits, is no run of this
    model: the worker then waits for ever.

    The call stack is part of that world: [Array.prototype.join] calls
    itself on an element that is an array, and [join_depth] is the number of
    arrays nested in one another that it has the stack for; on an array
    nested deeper it raises the RangeError whose message is
    [rangeError_message]. *)
Record environment : Type := {
  getQueueUrl_answer : history -> jsstring -> completion (option jsstring);
  sendMessage_answer : history -> jsstring -> jsstring -> jsstring -> completion unit;
  deleteMessage_answer : history -> jsstring -> jsstring -> completion unit;
  spawn_answer : history -> list jsvalue -> option jsvalue -> completion process_exit;
  typeError_message : type_error -> jsstring;
  join_depth : nat;
  rangeError_message : jsstring
}.

(** Computations that extend the history and return or throw. *)
Definition io (A : Type) : Type := history -> completion A * history.

Definition ret {A : Type} (a : A) : io A := fun h => (Normal a, h).

Definition raise {A : Type} (e : thrown) : io A := fun h => (Throw e, h).

Definition bind {A B : Type} (m : io A) (k : A -> io B) : io B :=
  fun h =>
    match m h with
    | (Normal a, h') => k a h'
    | (Throw e, h') => (Throw e, h')
    end.

(** [try { m } catch (error) { handler(error) }] *)
Definition try_catch {A : Type} (m : io A) (handler : thrown -> io A) : io A :=
  fun h =>
    match m h with
    | (Normal a, h') => (Normal a, h')
    | (Throw e, h') => handler e h'
    end.

(** An awaited call: it is recorded, then answered. *)
Definition call {A : Type} (e : event) (answer : history -> completion A) : io A :=
  fun h => (answer h, h ++ [e]).

Declare Scope io_scope.
Delimit Scope io_scope with io.
Notation "x <- m ;; k" := (bind m (fun x => k))
  (at level 61, m at next level, right associativity) : io_scope.
Notation "m ;; k" := (bind m (fun _ => k))
  (at level 61, right associativity) : io_scope.
Local Open Scope io_scope.

(** *** Parser *)

(** The first match of [/command=([^\]]+)/] in [body], as its capture group:
    at the leftmost place where [command=] is followed by a character other
    than [']'], all the characters up to the next [']'] or the end. *)
Fixpoint until_rbracket (s : jsstring) : jsstring :=
  match s with
  | c :: s' => if N.eqb c rbracket then [] else c :: until_rbracket s'
  | [] => []
  end.

Fixpoint match_command (body : jsstring) : option jsstring :=
  match body with
  | [] => None
  | _ :: body' =>
      match strip_prefix (lit "command=") body with
      | Some rest =>
          match until_rbracket rest with
          | [] => match_command body'
          | capture => Some capture
          end
      | None => match_command body'
      end
  end.

(** [s.replace(/\]$/, '')] *)
Fixpoint drop_final_rbracket (s : jsstring) : jsstring :=
  match s with
  | [] => []
  | [c] => if N.eqb c rbracket then [] else [c]
  | c :: s' => c :: drop_final_rbracket s'
  end.

(** [{ command: parts[0], args: parts.slice(1) }]; the arrays it is used on
    come from [split] and have a first element. *)
Definition command_of_parts (parts : list jsstring) : CommandMessage :=
  {| command := List.hd [] parts;
     args := Some (JArr (List.map JStr (slice1 parts)));
     cwd := None |}.

(** What a loop over [l] raises when it applies [f] to each element in
    turn: the first exception, if there is one. *)
Fixpoint first_raised {A : Type} (f : A -> option thrown) (l : list A)
  : option thrown :=
  match l with
  | [] => None
  | a :: l' =>
      match f a with
      | Some e => Some e
      | None => first_raised f l'
      end
  end.

Section Worker.

(** [JSON.parse]; [None] is a thrown SyntaxError. *)
Variable JSON_parse : jsstring -> option jsvalue.

Variable cfg : config.
Variable env : environment.

(** The [catch] block of [parseMessage]. *)
Definition parseMessage_fallback (body : jsstring) : option CommandMessage :=
  match trim body with
  | [] => None
  | _ :: _ =>
      match match_command body with
      | Some capture =>
          let commandString := drop_final_rbracket (trim capture) in
          Some (command_of_parts (split_ws commandString))
      | None => Some (command_of_parts (split_ws (trim body)))
      end
  end.

Definition parseMessage (body : jsstring) : option CommandMessage :=
  match JSON_parse body with
  | None => parseMessage_fallback body
  | Some (JStr parsed) => Some (command_of_parts (split_ws (trim parsed)))
  | Some parsed =>
      match get_property parsed (lit "command") with
      | None => parseMessage_fallback body       (* TypeError, caught *)
      | Some (Some (JStr (c :: r))) =>
          Some {| command := c :: r;
                  args := match get_property parsed (lit "args") with
                          | Some a => if truthy a then a else Some (JArr [])
                          | None => Some (JArr [])
                          end;
                  cwd := match get_property parsed (lit "cwd") with
                         | Some d => d
                         | None => None
                         end |}
      | Some _ => None
      end
  end.

(** *** Response publisher *)

(** The match of [/\/[^\/]+$/]: a slash followed by one or more characters
    that are not slashes, up to the end. *)
Fixpoint match_last_segment (url : jsstring) : option jsstring :=
  match url with
  | [] => None
  | c :: url' =>
      if N.eqb c slash
         && match url' with [] => false | _ => true end
         && List.forallb (fun d => negb (N.eqb d slash)) url'
      then Some (c :: url')
      else match_last_segment url'
  end.

Definition getResponseQueueName : jsstring :=
  match RESPONSE_QUEUE_NAME cfg with
  | _ :: _ => RESPONSE_QUEUE_NAME cfg
  | [] =>
      match match_last_segment (QUEUE_URL cfg) with
      | Some m => let instanceId := List.tl m in instanceId ++ lit "-responses"
      | None => []
      end
  end.

(** The object [sendResponse] serialises. *)
Definition response_object (correlationId : jsstring) (result : ExecutionResult)
  : list (jsstring * JSON.scalar) :=
  [ (lit "correlationId", JSON.SStr correlationId);
    (lit "success", JSON.SBool (success result));
    (lit "stdout", JSON.SStr (output result));
    (lit "stderr", JSON.SStr (or_string (error result) []));
    (lit "exitCode", JSON.SInt (exitCode result)) ].

Definition sendResponse (correlationId : jsstring) (result : ExecutionResult)
  : io unit :=
  let responseQueueName := getResponseQueueName in
  match responseQueueName with
  | [] => ret tt
  | _ :: _ =>
      try_catch
        (queueUrlResponse <-
           call (GetQueueUrl responseQueueName)
                (fun h => getQueueUrl_answer env h responseQueueName) ;;
         match queueUrlResponse with
         | Some (u :: rl) =>
             let responseBody :=
               JSON.stringify_object (response_object correlationId result) in
             call (SendMessage (u :: rl) responseBody correlationId)
                  (fun h => sendMessage_answer env h (u :: rl) responseBody
                              correlationId)
         | _ => ret tt
         end)
        (fun _ => ret tt)
  end.

(** *** Process executor *)

(** [...args] in an array literal. *)
Definition spread (a : jsvalue) : io (list jsvalue) :=
  match a with
  | JArr elements => ret elements
  | JStr s => ret (List.map JStr (code_points s))
  | _ => raise (ErrorObject (typeError_message env NotIterable))
  end.

(** [error instanceof Error ? error.message : String(error)] *)
Definition describe (e : thrown) : jsstring :=
  match e with
  | ErrorObject message => message
  | OtherValue shown => shown
  end.

Definition executeCommand (cmd : CommandMessage) : io ExecutionResult :=
  try_catch
    (let parts := split_ws (trim (command cmd)) in
     let command' := List.hd [] parts in
     let args0 :=
       match args cmd with
       | None | Some JNull => JArr []                       (* cmd.args ?? [] *)
       | Some a => a
       end in
     let args' :=
       if negb (truthy (args cmd)) then JArr (List.map JStr (slice1 parts))
       else args0 in
     rest <- spread args' ;;
     proc <- call (Spawn (JStr command' :: rest) (cwd cmd))
                  (fun h => spawn_answer env h (JStr command' :: rest) (cwd cmd)) ;;
     ret {| success := (exited proc =? 0)%Z;
            output := stdout_text proc;
            error := match stderr_text proc with
                     | [] => None
                     | c :: r => Some (c :: r)
                     end;
            exitCode := exited proc |})
    (fun e =>
       ret {| success := false;
              output := [];
              error := Some (describe e);
              exitCode := 1 |}).

(** *** Message lifecycle *)

(** What ToString raises on a parsed value, when [depth] more nested calls
    of [join] fit on the stack.  An array is converted by [join], which
    converts its elements in order and so raises what the first failing
    element raises; without room for the call it raises a RangeError.  An
    object with an own [toString] member has nothing callable there, and
    [valueOf] gives no primitive: a TypeError.  Nothing else raises. *)
Fixpoint toString_raises (depth : nat) (v : jsvalue) {struct v} : option thrown :=
  match v with
  | JArr elements =>
      match depth with
      | O => Some (ErrorObject (rangeError_message env))
      | S depth' => first_raised (toString_raises depth') elements
      end
  | JObj members =>
      match own_property (lit "toString") members with
      | Some _ => Some (ErrorObject (typeError_message env NoPrimitiveValue))
      | None => None
      end
  | _ => None
  end.

(** The text of the line [Executing: ...] is not modelled, only
    [(cmd.args || []).join(" ")] in it, which raises when what stands for the
    arguments has no [join], or holds an element ToString raises on. *)
Definition log_executing (cmd : CommandMessage) : io unit :=
  if truthy (args cmd) then
    match args cmd with
    | Some (JArr elements) =>
        match first_raised (toString_raises (join_depth env)) elements with
        | Some e => raise e
        | None => ret tt
        end
    | _ => raise (ErrorObject (typeError_message env NotAFunction))
    end
  else ret tt.

Definition rejection_text (cmd : CommandMessage) : jsstring :=
  lit "Command " ++ dquote :: command cmd ++ dquote :: lit " is not in the allowlist".

(** [if (receiptHandle) { try { delete } catch { log } }] *)
Definition delete_message (receiptHandle : option jsstring) : io unit :=
  match receiptHandle with
  | Some (c :: r) =>
      try_catch
        (call (DeleteMessage (QUEUE_URL cfg) (c :: r))
              (fun h => deleteMessage_answer env h (QUEUE_URL cfg) (c :: r)))
        (fun _ => ret tt)
  | _ => ret tt
  end.

Definition correlationId_of (message : Message) : jsstring :=
  or_string (CorrelationIdAttribute message) (or_string (MessageId message) []).

Definition processMessage (message : Message) : io unit :=
  let body := or_string (Body message) [] in
  let receiptHandle := ReceiptHandle message in
  let correlationId := correlationId_of message in
  match parseMessage body with
  | None => ret tt
  | Some cmd =>
      if negb (isCommandAllowed (command cmd)) then
        (match correlationId with
         | _ :: _ =>
             sendResponse correlationId
               {| success := false;
                  output := [];
                  error := Some (rejection_text cmd);
                  exitCode := 1 |}
         | [] => ret tt
         end) ;;
        delete_message receiptHandle
      else
        log_executing cmd ;;
        result <- executeCommand cmd ;;
        (match correlationId with
         | _ :: _ => sendResponse correlationId result
         | [] => ret tt
         end) ;;
        delete_message receiptHandle
  end.

End Worker.

(** *** Polling loop

    [pollQueue] and [main].  The answer of the service to the
    [ReceiveMessageCommand] of a poll is an argument of [pollQueue]: it is the
    rejection of the call, or its response, whose [Messages] may be
    undefined.  [main] loops for ever; its model runs the rounds for which it
    is given answers, and the pause between two rounds is not modelled. *)

Definition poll_answer : Type := completion (option (list Message)).

(** How [main] stands after the rounds it was given. *)
Inductive main_state : Type :=
| Exited (code : Z)
| Polling.

Section Loop.

Variable JSON_parse : jsstring -> option jsvalue.
Variable cfg : config.
Variable env : environment.

(** [for (const message of response.Messages) await processMessage(message)] *)
Fixpoint process_all (messages : list Message) : io unit :=
  match messages with
  | [] => ret tt
  | message :: rest =>
      processMessage JSON_parse cfg env message ;; process_all rest
  end.

Definition pollQueue (response : poll_answer) : io unit :=
  try_catch
    (match response with
     | Throw e => raise e
     | Normal (Some (m :: rest)) => process_all (m :: rest)
     | Normal _ => ret tt
     end)
    (fun _ => ret tt).

(** [while (true) { await pollQueue(); await delay }], as far as the
    answers go. *)
Fixpoint poll_rounds (answers : list poll_answer) : io unit :=
  match answers with
  | [] => ret tt
  | answer :: rest => pollQueue answer ;; poll_rounds rest
  end.

Definition main (answers : list poll_answer) : io main_state :=
  match QUEUE_URL cfg with
  | [] => ret (Exited 1)                         (* process.exit(1) *)
  | _ :: _ => poll_rounds answers ;; ret Polling
  end.

End Loop.

(** ** The worker of [src/index.ts]

    The repository also holds, as [src/index.ts], a text of the worker
    without the response queue: its gate compares the whole last segment,
    its parser has no plain-text fallback, its executor takes the command as
    it is and reports no exit code. *)

Module IndexTs.

Definition ALLOWLIST : list jsstring :=
  List.map lit
    ["ls"; "grep"; "git"; "cat"; "echo"; "pwd"; "whoami"; "date"; "uname"]%string.

Definition ALLOWLIST_has (x : option jsstring) : bool :=
  match x with
  | Some b => List.existsb (jsstring_eqb b) ALLOWLIST
  | None => false
  end.

(** [command.split("/").pop() || command] *)
Definition isCommandAllowed (command : jsstring) : bool :=
  let parts := split_char slash command in
  let baseCommand :=
    or_string (List.nth_error parts (List.length parts - 1)) command in
  ALLOWLIST_has (Some baseCommand).

Record ExecutionResult : Type := {
  success : bool;
  output : jsstring;
  error : option jsstring
}.

Section Worker.

Variable JSON_parse : jsstring -> option jsvalue.
Variable env : environment.

Definition parseMessage (body : jsstring) : option CommandMessage :=
  match JSON_parse body with
  | None => None
  | Some (JStr parsed) => Some (command_of_parts (split_ws (trim parsed)))
  | Some parsed =>
      match get_property parsed (lit "command") with
      | None => None                             (* TypeError, caught *)
      | Some (Some (JStr (c :: r))) =>
          Some {| command := c :: r;
                  args := match get_property parsed (lit "args") with
                          | Some a => if truthy a then a else Some (JArr [])
                          | None => Some (JArr [])
                          end;
                  cwd := match get_property parsed (lit "cwd") with
                         | Some d => d
                         | None => None
                         end |}
      | Some _ => None
      end
  end.

Definition executeCommand (cmd : CommandMessage) : io ExecutionResult :=
  try_catch
    (rest <- spread env (match args cmd with
                         | Some a => if truthy (args cmd) then a else JArr []
                         | None => JArr []
                         end) ;;
     proc <- call (Spawn (JStr (command cmd) :: rest) (cwd cmd))
                  (fun h => spawn_answer env h (JStr (command cmd) :: rest)
                              (cwd cmd)) ;;
     ret {| success := (exited proc =? 0)%Z;
            output := stdout_text proc;
            error := match stderr_text proc with
                     | [] => None
                     | c :: r => Some (c :: r)
                     end |})
    (fun e => ret {| success := false; output := []; error := Some (describe e) |}).

Variable cfg : config.

(** The log line and the deletion are those of the other text. *)
Definition processMessage (message : Message) : io unit :=
  let body := or_string (Body message) [] in
  let receiptHandle := ReceiptHandle message in
  match parseMessage body with
  | None => ret tt
  | Some cmd =>
      if negb (isCommandAllowed (command cmd)) then
        delete_message cfg env receiptHandle
      else
        log_executing env cmd ;;
        _result <- executeCommand cmd ;;
        delete_message cfg env receiptHandle
  end.

End Worker.

End IndexTs.

(** ** The words of the specification

    The definitions of this part follow the design specification, not the
    source: they are what the code is compared with. *)

(** Tokenisation on runs of whitespace: the maximal runs of characters that
    are not whitespace, in order. *)
Fixpoint words (s : jsstring) : list jsstring :=
  match s with
  | [] => []
  | c :: s' =>
      if is_ws c then words s'
      else match s' with
           | [] => [[c]]
           | c' :: _ =>
               if is_ws c' then [c] :: words s' else push_front c (words s')
           end
  end.

Definition first_token (s : jsstring) : option jsstring := List.hd_error (words s).

(** The basename: what follows the last ['/'] of [c], all of [c] when it has
    none. *)
Fixpoint last_segment (c : jsstring) : jsstring :=
  match c with
  | [] => []
  | x :: c' =>
      if List.existsb (N.eqb slash) c' then last_segment c'
      else if N.eqb x slash then c' else c
  end.

(** The gate as the specification words it. *)
Definition isAllowed_as_specified (c : jsstring) : bool :=
  ALLOWLIST_has (first_token (last_segment c)).


(** A descriptor made of tokens: the first is the command, the others the
    arguments, and there is no working directory. *)
Definition command_of_tokens (cmd : jsstring) (rest : list jsstring)
  : CommandMessage :=
  {| command := cmd; args := Some (JArr (List.map JStr rest)); cwd := None |}.

(** The text that follows the first occurrence of the literal [p] in [s]. *)
Fixpoint after_literal (p s : jsstring) : option jsstring :=
  match strip_prefix p s with
  | Some r => Some r
  | None =>
      match s with
      | [] => None
      | _ :: s' => after_literal p s'
      end
  end.

(** [s] without its last character when that is [']']. *)
Definition without_trailing_rbracket (s : jsstring) : jsstring :=
  match List.rev s with
  | c :: r => if N.eqb c rbracket then List.rev r else s
  | [] => []
  end.

(** The plain-text fallback as the specification words it: a body with the
    literal [command=] gives the tokens of the text after it, a trailing
    [']'] excluded; any other body gives its own tokens; a body without any
    token is a parse failure. *)
Definition fallback_as_specified (body : jsstring) : option CommandMessage :=
  let of_tokens ts :=
    match ts with
    | cmd :: rest => Some (command_of_tokens cmd rest)
    | [] => None
    end in
  match words body with
  | [] => None
  | _ :: _ =>
      match after_literal (lit "command=") body with
      | Some rest => of_tokens (words (without_trailing_rbracket rest))
      | None => of_tokens (words body)
      end
  end.

(** Where the fallback of the code finds its command: [capture] is not
    empty, holds no [']'], follows an occurrence of [command=] and runs up to
    the next [']'] or to the end of the body; no earlier occurrence of
    [command=] is followed by a character other than [']']. *)
Definition closes (post : jsstring) : Prop :=
  post = [] \/ exists post', post = rbracket :: post'.

Definition command_capture (body capture : jsstring) : Prop :=
  exists pre post,
    body = pre ++ lit "command=" ++ capture ++ post
    /\ capture <> []
    /\ List.existsb (N.eqb rbracket) capture = false
    /\ closes post
    /\ forall pre' rest',
         body = pre' ++ lit "command=" ++ rest' ->
         List.length pre' < List.length pre -> closes rest'.

Definition no_command_capture (body : jsstring) : Prop :=
  forall pre rest, body = pre ++ lit "command=" ++ rest -> closes rest.

(** Tokens joined by single spaces: a string of the form
    [<cmd> <args...>]. *)
Fixpoint join_spaces (tokens : list jsstring) : jsstring :=
  match tokens with
  | [] => []
  | [t] => t
  | t :: rest => t ++ 32%N :: join_spaces rest
  end.

Definition is_token (t : jsstring) : Prop :=
  t <> [] /\ List.existsb is_ws t = false.

Definition starts_ws (s : jsstring) : bool :=
  match s with
  | c :: _ => is_ws c
  | [] => false
  end.

(** The number of deletions in a run. *)
Definition is_delete (e : event) : bool :=
  match e with DeleteMessage _ _ => true | _ => false end.
Definition is_spawn (e : event) : bool :=
  match e with Spawn _ _ => true | _ => false end.
Definition count_deletes (t : history) : nat :=
  List.length (List.filter is_delete t).

(** What a run of the publisher may add to the history: nothing, the lookup
    of the response queue alone, or the lookup and the response. *)
Definition response_events (cid : jsstring) (result : ExecutionResult)
  (t : history) : Prop :=
  t = []
  \/ (exists name, t = [GetQueueUrl name])
  \/ (exists name url,
        t = [GetQueueUrl name;
             SendMessage url
               (JSON.stringify_object (response_object cid result)) cid]).

Definition is_send (e : event) : bool :=
  match e with SendMessage _ _ _ => true | _ => false end.
Definition is_lookup (e : event) : bool :=
  match e with GetQueueUrl _ => true | _ => false end.

(** ** Closed forms

    What the parts of the worker come to, for use in the statements
    below. *)

(** The argument vector [executeCommand] builds, when it can build one. *)
Definition argv_of (cmd : CommandMessage) : option (list jsvalue) :=
  let parts := split_ws (trim (command cmd)) in
  let program := JStr (List.hd [] parts) in
  if negb (truthy (args cmd))
  then Some (program :: List.map JStr (slice1 parts))
  else match args cmd with
       | Some (JArr given) => Some (program :: given)
       | Some (JStr s) => Some (program :: List.map JStr (code_points s))
       | _ => None
       end.

Definition failure (description : jsstring) : ExecutionResult :=
  {| success := false; output := []; error := Some description; exitCode := 1 |}.

Definition result_of_exit (p : process_exit) : ExecutionResult :=
  {| success := (exited p =? 0)%Z;
     output := stdout_text p;
     error := match stderr_text p with [] => None | c :: r => Some (c :: r) end;
     exitCode := exited p |}.

(** Whether writing the line [Executing: ...] raises. *)
Definition log_raises (env : environment) (cmd : CommandMessage) : bool :=
  truthy (args cmd)
  && match args cmd with
     | Some (JArr elements) =>
         match first_raised (toString_raises env (join_depth env)) elements with
         | Some _ => true
         | None => false
         end
     | _ => true
     end.

(** [n] arrays nested in one another around nothing. *)
Fixpoint nested_array (n : nat) : jsvalue :=
  match n with
  | O => JArr []
  | S n' => JArr [nested_array n']
  end.

(** The deletion [processMessage] ends on. *)
Definition acknowledgment (cfg : config) (receiptHandle : option jsstring)
  : history :=
  match receiptHandle with
  | Some (c :: r) => [DeleteMessage (QUEUE_URL cfg) (c :: r)]
  | _ => []
  end.

(** The call to [Bun.spawn] that [executeCommand] makes, if it makes one. *)
Definition spawn_events (cmd : CommandMessage) : history :=
  match argv_of cmd with
  | Some argv => [Spawn argv (cwd cmd)]
  | None => []
  end.

(** The calls of one run of [sendResponse]: none without a response queue;
    otherwise the lookup, and the send when the lookup gave a URL. *)
Definition publication (cfg : config) (cid : jsstring) (result : ExecutionResult)
  (t : history) : Prop :=
  match getResponseQueueName cfg with
  | [] => t = []
  | n :: name =>
      t = [GetQueueUrl (n :: name)]
      \/ exists u rl,
           t = [GetQueueUrl (n :: name);
                SendMessage (u :: rl)
                  (JSON.stringify_object (response_object cid result)) cid]
  end.

(** The calls [processMessage] makes to answer a message: none when the
    message has no correlation id. *)
Definition published (cfg : config) (msg : Message) (result : ExecutionResult)
  (t : history) : Prop :=
  match correlationId_of msg with
  | [] => t = []
  | c :: cid => publication cfg (c :: cid) result t
  end.

(** What links a call of the worker to a received message: a process is
    started for the descriptor the message parses to, when the gate lets it
    pass; a deletion is of the receipt handle of the message, on the command
    queue; a response carries the correlation id of the message and goes
    through the lookup of the response queue. *)
Definition caused_by (JSON_parse : jsstring -> option jsvalue) (cfg : config)
  (msg : Message) (e : event) : Prop :=
  match e with
  | Spawn argv d =>
      exists cmd,
        parseMessage JSON_parse (or_string (Body msg) []) = Some cmd
        /\ isCommandAllowed (command cmd) = true
        /\ argv_of cmd = Some argv
        /\ d = cwd cmd
  | DeleteMessage url handle =>
      url = QUEUE_URL cfg /\ ReceiptHandle msg = Some handle
  | SendMessage _ _ cid => cid = correlationId_of msg
  | GetQueueUrl name => name = getResponseQueueName cfg
  end.

(** ** A consumer of responses

    The specification speaks of a consumer that deserialises a response
    body; the worker has none.  This one decodes the body and reads the four
    fields of the result. *)

Record received : Type := {
  r_success : bool;
  r_exitCode : Z;
  r_stdout : jsstring;
  r_stderr : jsstring
}.

Definition read_response (body : jsstring) : option received :=
  match JSON.parse body with
  | Some (JObj members) =>
      match own_property (lit "success") members,
            own_property (lit "exitCode") members,
            own_property (lit "stdout") members,
            own_property (lit "stderr") members with
      | Some (JBool b), Some (JNum neg m 0), Some (JStr out), Some (JStr err) =>
          Some {| r_success := b;
                  r_exitCode := if neg then (- Z.of_N m)%Z else Z.of_N m;
                  r_stdout := out;
                  r_stderr := err |}
      | _, _, _, _ => None
      end
  | _ => None
  end.

(** ** A sample deployment

    A configuration and an outside world to run the model in: the queue
    service answers every call, and every program prints [hello] and exits
    with status 0, except the program without a name, which cannot be
    started. *)

Module Sample.

Definition cfg : config :=
  {| QUEUE_URL := lit "https://sqs.us-east-1.amazonaws.com/123456789012/i-0abc";
     RESPONSE_QUEUE_NAME := [] |}.

Definition env : environment :=
  {| getQueueUrl_answer := fun _ name =>
       Normal (Some (lit "https://sqs.us-east-1.amazonaws.com/123456789012/"
                     ++ name));
     sendMessage_answer := fun _ _ _ _ => Normal tt;
     deleteMessage_answer := fun _ _ _ => Normal tt;
     spawn_answer := fun _ argv _ =>
       match argv with
       | JStr [] :: _ => Throw (ErrorObject (lit "ENOENT"))
       | _ => Normal {| stdout_text := lit "hello" ++ [10%N];
                        stderr_text := [];
                        exited := 0 |}
       end;
     typeError_message := fun _ => lit "TypeError";
     join_depth := 1000;
     rangeError_message := lit "RangeError" |}.

Definition message (body : jsstring) : Message :=
  {| Body := Some body;
     ReceiptHandle := Some (lit "receipt-1");
     CorrelationIdAttribute := Some (lit "request-1");
     MessageId := Some (lit "message-1") |}.

(** A JSON string literal without escapes. *)
Definition quoted (s : string) : jsstring := dquote :: lit s ++ [dquote].

(** [{"command":"rm","args":["-rf","/"]}] *)
Definition body_rm : jsstring :=
  lit "{" ++ quoted "command" ++ lit ":" ++ quoted "rm" ++ lit ","
  ++ quoted "args" ++ lit ":[" ++ quoted "-rf" ++ lit "," ++ quoted "/"
  ++ lit "]}".

(** [{"command":"ls","args":5}] *)
Definition body_ls_5 : jsstring :=
  lit "{" ++ quoted "command" ++ lit ":" ++ quoted "ls" ++ lit ","
  ++ quoted "args" ++ lit ":5}".

(** [{"command":"rm x/ls","args":["-rf","/"]}] *)
Definition body_rm_ls : jsstring :=
  lit "{" ++ quoted "command" ++ lit ":" ++ quoted "rm x/ls" ++ lit ","
  ++ quoted "args" ++ lit ":[" ++ quoted "-rf" ++ lit "," ++ quoted "/"
  ++ lit "]}".

(** What that body parses to. *)
Definition cmd_rm_ls : CommandMessage :=
  {| command := lit "rm x/ls";
     args := Some (JArr [JStr (lit "-rf"); JStr (lit "/")]);
     cwd := None |}.

(** A message that came without a receipt handle. *)
Definition message_without_handle (body : jsstring) : Message :=
  {| Body := Some body;
     ReceiptHandle := None;
     CorrelationIdAttribute := Some (lit "request-1");
     MessageId := Some (lit "message-1") |}.

(** The result of [echo hello]: nothing on the error stream. *)
Definition echo_result : ExecutionResult :=
  {| success := true;
     output := lit "hello" ++ [10%N];
     error := None;
     exitCode := 0 |}.

End Sample.

(** * Properties *)

(** ** Strings *)

Lemma jsstring_eqb_eq (a b : jsstring) : jsstring_eqb a b = true <-> a = b.
Proof.
  revert b; induction a as [|x a IH]; intros [|y b]; simpl;
    try (split; [discriminate | congruence ]); [tauto|].
  rewrite andb_true_iff, N.eqb_eq, IH.
  split; [intros [-> ->]; reflexivity | intros H; injection H; auto].
Qed.

Lemma jsstring_eqb_refl (a : jsstring) : jsstring_eqb a a = true.
Proof. apply jsstring_eqb_eq; reflexivity. Qed.

Lemma push_front_nonempty (c : char16) (parts : list jsstring) :
  push_front c parts <> [].
Proof. destruct parts; discriminate. Qed.

Lemma split_char_nonempty (sep : char16) (s : jsstring) : split_char sep s <> [].
Proof.
  destruct s as [|c s]; simpl; [discriminate|].
  destruct (N.eqb c sep); [discriminate | apply push_front_nonempty].
Qed.

Lemma split_ws_nonempty (s : jsstring) : split_ws s <> [].
Proof.
  induction s as [|c s IH]; simpl; [discriminate|].
  destruct (is_ws c); [|apply push_front_nonempty].
  destruct s as [|c' s]; [discriminate|].
  destruct (is_ws c'); [exact IH | discriminate].
Qed.

Lemma ltrim_starts (s : jsstring) : starts_ws (ltrim s) = false.
Proof.
  induction s as [|c s IH]; simpl; [reflexivity|].
  destruct (is_ws c) eqn:E; [exact IH | simpl; exact E].
Qed.

Lemma words_ltrim (s : jsstring) : words (ltrim s) = words s.
Proof.
  induction s as [|c s IH]; [reflexivity|].
  change (ltrim (c :: s)) with (if is_ws c then ltrim s else c :: s).
  change (words (c :: s)) with
    (if is_ws c then words s
     else match s with
          | [] => [[c]]
          | c' :: _ => if is_ws c' then [c] :: words s else push_front c (words s)
          end).
  destruct (is_ws c) eqn:E; [exact IH|].
  simpl; rewrite E; reflexivity.
Qed.

Lemma rtrim_head (s : jsstring) (d : char16) (r : jsstring) :
  rtrim s = d :: r -> exists s', s = d :: s'.
Proof.
  destruct s as [|c s]; simpl; [discriminate|].
  destruct (rtrim s); [destruct (is_ws c)|]; intros H; inversion H; eauto.
Qed.

(** What [split] makes of a string trimmed on the right, in terms of the
    words of the string. *)
Lemma split_ws_rtrim (s : jsstring) :
  match rtrim s with
  | [] => words s = []
  | r => split_ws r = if starts_ws s then [] :: words s else words s
  end.
Proof.
  induction s as [|c s IH]; [reflexivity|].
  simpl rtrim.
  destruct (rtrim s) as [|d r] eqn:R.
  - destruct (is_ws c) eqn:E.
    + simpl; rewrite E; exact IH.
    + simpl; rewrite E, IH.
      destruct s as [|c' s]; [reflexivity|].
      destruct (is_ws c'); reflexivity.
  - destruct (rtrim_head _ _ _ R) as [s' ->].
    simpl starts_ws in IH |- *.
    change (split_ws (c :: d :: r)) with
      (if is_ws c
       then (if is_ws d then split_ws (d :: r) else [] :: split_ws (d :: r))
       else push_front c (split_ws (d :: r))).
    change (words (c :: d :: s')) with
      (if is_ws c then words (d :: s')
       else if is_ws d then [c] :: words (d :: s')
            else push_front c (words (d :: s'))).
    rewrite IH.
    destruct (is_ws c), (is_ws d); reflexivity.
Qed.

(** [s.trim().split(/\s+/)] is the list of the words of [s], except that a
    string without any word gives one empty element. *)
Lemma split_ws_trim (s : jsstring) :
  split_ws (trim s) = match words s with [] => [[]] | l => l end.
Proof.
  unfold trim.
  pose proof (split_ws_rtrim (ltrim s)) as H.
  rewrite ltrim_starts, words_ltrim in H.
  destruct (rtrim (ltrim s)) as [|d r] eqn:R.
  - rewrite H; reflexivity.
  - rewrite H. destruct (words s) eqn:W; [|reflexivity].
    exfalso; apply (split_ws_nonempty (d :: r)); exact H.
Qed.

Lemma hd_split_ws_trim (s : jsstring) :
  List.hd [] (split_ws (trim s)) = List.hd [] (words s).
Proof. rewrite split_ws_trim; destruct (words s); reflexivity. Qed.

Lemma tl_split_ws_trim (s : jsstring) :
  List.tl (split_ws (trim s)) = List.tl (words s).
Proof. rewrite split_ws_trim; destruct (words s); reflexivity. Qed.

Lemma trim_nil_words (s : jsstring) : trim s = [] <-> words s = [].
Proof.
  unfold trim.
  pose proof (split_ws_rtrim (ltrim s)) as H.
  rewrite ltrim_starts, words_ltrim in H.
  destruct (rtrim (ltrim s)) as [|d r] eqn:R.
  - tauto.
  - split; [discriminate|]. intros W. rewrite W in H.
    exfalso; apply (split_ws_nonempty (d :: r)); exact H.
Qed.

(** A word is not empty and holds no whitespace. *)
Lemma words_spec (s : jsstring) :
  List.Forall (fun w => w <> [] /\ List.forallb is_ws w = false
                        /\ List.existsb is_ws w = false) (words s).
Proof.
  induction s as [|c s IH]; [constructor|].
  change (words (c :: s)) with
    (if is_ws c then words s
     else match s with
          | [] => [[c]]
          | c' :: _ => if is_ws c' then [c] :: words s else push_front c (words s)
          end).
  destruct (is_ws c) eqn:E; [exact IH|].
  assert (Hc : [c] <> [] /\ List.forallb is_ws [c] = false
               /\ List.existsb is_ws [c] = false)
    by (simpl; rewrite E; repeat split; discriminate).
  destruct s as [|c' s']; [constructor; [exact Hc | constructor]|].
  destruct (is_ws c') eqn:E'; [constructor; assumption|].
  destruct (words (c' :: s')) as [|w ws] eqn:W; simpl;
    [constructor; [exact Hc | constructor]|].
  inversion IH as [|? ? [Hw1 [Hw2 Hw3]] Hws]; subst.
  constructor; [|assumption].
  simpl; rewrite E, Hw3; repeat split; discriminate.
Qed.

(** ** Allowlist gate *)

Lemma split_char_without (sep : char16) (s : jsstring) :
  List.existsb (N.eqb sep) s = false -> split_char sep s = [s].
Proof.
  induction s as [|c s IH]; simpl; [reflexivity|].
  rewrite orb_false_iff; intros [Hc Hs].
  rewrite N.eqb_sym, Hc, (IH Hs); reflexivity.
Qed.

Lemma split_char_with (sep : char16) (s : jsstring) :
  List.existsb (N.eqb sep) s = true ->
  exists a b l, split_char sep s = a :: b :: l.
Proof.
  induction s as [|c s IH]; simpl; [discriminate|].
  rewrite (N.eqb_sym sep c).
  destruct (N.eqb c sep) eqn:E; simpl.
  - intros _. destruct (split_char sep s) as [|a l] eqn:S;
      [exfalso; exact (split_char_nonempty _ _ S) | eauto].
  - intros H. destruct (IH H) as (a & b & l & ->). simpl; eauto.
Qed.

Lemma last_segment_without (c : jsstring) :
  List.existsb (N.eqb slash) c = false -> last_segment c = c.
Proof.
  destruct c as [|x c]; cbn [List.existsb last_segment]; [reflexivity|].
  rewrite orb_false_iff; intros [Hx Hc].
  rewrite Hc, (N.eqb_sym x), Hx; reflexivity.
Qed.

Lemma last_split_char (c : jsstring) :
  List.last (split_char slash c) [] = last_segment c.
Proof.
  induction c as [|x c IH]; [reflexivity|].
  cbn [split_char last_segment].
  destruct (List.existsb (N.eqb slash) c) eqn:H.
  - destruct (split_char_with _ _ H) as (a & b & l & S).
    rewrite <- IH, S.
    destruct (N.eqb x slash); reflexivity.
  - rewrite (split_char_without _ _ H).
    destruct (N.eqb x slash); reflexivity.
Qed.

Lemma nth_error_last (A : Type) (l : list A) (d : A) :
  l <> [] -> List.nth_error l (List.length l - 1) = Some (List.last l d).
Proof.
  induction l as [|a l IH]; [congruence|]; intros _.
  destruct l as [|b l]; [reflexivity|].
  replace (List.length (a :: b :: l) - 1) with (S (List.length (b :: l) - 1))
    by (simpl; lia).
  change (List.last (a :: b :: l) d) with (List.last (b :: l) d).
  cbn [List.nth_error]. apply IH; discriminate.
Qed.

(** The last segment survives any prefix that ends in a slash. *)
Lemma last_segment_prefix (p c : jsstring) :
  last_segment (p ++ slash :: c) = last_segment c.
Proof.
  induction p as [|x p IH]; cbn [app last_segment].
  - rewrite N.eqb_refl.
    destruct (List.existsb (N.eqb slash) c) eqn:H; [reflexivity|].
    symmetry; apply last_segment_without; exact H.
  - rewrite List.existsb_app; cbn [List.existsb].
    rewrite N.eqb_refl, orb_true_r. exact IH.
Qed.

Lemma ALLOWLIST_has_hd (s : jsstring) :
  ALLOWLIST_has (Some (List.hd [] (words s))) = ALLOWLIST_has (first_token s).
Proof. unfold first_token; destruct (words s); reflexivity. Qed.

Lemma ALLOWLIST_has_In (x : option jsstring) :
  ALLOWLIST_has x = true <-> exists t, x = Some t /\ List.In t ALLOWLIST.
Proof.
  destruct x as [t|]; unfold ALLOWLIST_has.
  - rewrite List.existsb_exists. split.
    + intros (y & Hy & E). apply jsstring_eqb_eq in E; subst y. eauto.
    + intros (y & E & Hy). injection E as <-.
      exists t; split; [exact Hy | apply jsstring_eqb_refl].
  - split; [discriminate | intros (t & E & _); discriminate].
Qed.

(** What the gate looks at: the last segment, or the whole command when
    that segment is empty ([lastPart || command]). *)
Lemma isCommandAllowed_unfold (c : jsstring) :
  isCommandAllowed c =
  ALLOWLIST_has (first_token (or_string (Some (last_segment c)) c)).
Proof.
  unfold isCommandAllowed; cbv zeta.
  rewrite (nth_error_last jsstring _ [] (split_char_nonempty slash c)),
    last_split_char.
  set (lastPart := or_string _ c).
  assert (E : @List.nth_error jsstring (split_ws (trim lastPart)) 0
              = Some (List.hd [] (split_ws (trim lastPart)))).
  { pose proof (split_ws_nonempty (trim lastPart)) as N.
    destruct (split_ws (trim lastPart)); [congruence | reflexivity]. }
  rewrite E, hd_split_ws_trim, ALLOWLIST_has_hd.
  destruct (ALLOWLIST_has _); reflexivity.
Qed.

Lemma isCommandAllowed_trailing_slash (c : jsstring) :
  last_segment c = [] -> isCommandAllowed c = ALLOWLIST_has (first_token c).
Proof. intros H; rewrite isCommandAllowed_unfold, H; reflexivity. Qed.

(** C2 (as amended).  For every command whose last ['/']-separated segment
    is not empty, [isCommandAllowed] is exact membership in the allowlist of
    the first whitespace-separated token of that segment, and the decision
    is the same under every prepended path prefix.  [isCommandAllowed] is a
    total function: the array reads of its body are in range
    ([split_char_nonempty], [split_ws_nonempty]). *)
Theorem isCommandAllowed_basename (p c : jsstring) :
  last_segment c <> [] ->
  isCommandAllowed c = ALLOWLIST_has (first_token (last_segment c))
  /\ (isCommandAllowed c = true <->
      exists t, first_token (last_segment c) = Some t /\ List.In t ALLOWLIST)
  /\ isCommandAllowed (p ++ slash :: c) = isCommandAllowed c.
Proof.
  intros H.
  assert (E : forall d, last_segment d = last_segment c ->
                isCommandAllowed d = ALLOWLIST_has (first_token (last_segment c))).
  { intros d Hd. rewrite isCommandAllowed_unfold, Hd.
    destruct (last_segment c); [congruence | reflexivity]. }
  split; [|split].
  - apply E; reflexivity.
  - rewrite (E c eq_refl). apply ALLOWLIST_has_In.
  - rewrite (E c eq_refl). apply E, last_segment_prefix.
Qed.

Lemma isCommandAllowed_basename_witness :
  last_segment (lit "git") <> []
  /\ isCommandAllowed (lit "/usr/bin" ++ slash :: lit "git")
     = isCommandAllowed (lit "git").
Proof.
  split; [discriminate|].
  apply (isCommandAllowed_basename (lit "/usr/bin") (lit "git")).
  discriminate.
Defined.

(** C2 as stated fails where the command ends in a slash: the last segment
    is empty, and the gate then reads the whole command; a prefix changes
    what "the whole command" is. *)
Lemma isCommandAllowed_counterexample :
  isCommandAllowed (lit "ls /") = true
  /\ isAllowed_as_specified (lit "ls /") = false
  /\ isCommandAllowed (lit "x" ++ slash :: lit "ls /")
     <> isCommandAllowed (lit "ls /").
Proof. repeat split. discriminate. Qed.

(** ** Parser *)

Lemma strip_prefix_Some (p s r : jsstring) :
  strip_prefix p s = Some r <-> s = p ++ r.
Proof.
  revert s; induction p as [|a p IH]; intros s; simpl.
  - split; [intros H; injection H; auto | intros ->; reflexivity].
  - destruct s as [|b s]; [split; discriminate|].
    destruct (N.eqb a b) eqn:E.
    + apply N.eqb_eq in E; subst b. rewrite IH.
      split; [intros ->; reflexivity | intros H; injection H; auto].
    + apply N.eqb_neq in E. split; [discriminate|].
      intros H; injection H; intros; congruence.
Qed.

Lemma until_rbracket_closes (post : jsstring) :
  closes post -> until_rbracket post = [].
Proof.
  intros [-> | [post' ->]]; [reflexivity|].
  cbn [until_rbracket]. rewrite N.eqb_refl; reflexivity.
Qed.

Lemma until_rbracket_capture (capture post : jsstring) :
  List.existsb (N.eqb rbracket) capture = false -> closes post ->
  until_rbracket (capture ++ post) = capture.
Proof.
  intros H C; induction capture as [|c capture IH].
  - apply until_rbracket_closes; exact C.
  - cbn [List.existsb] in H. apply orb_false_iff in H as [Hc H].
    cbn [app until_rbracket]. rewrite N.eqb_sym, Hc, (IH H); reflexivity.
Qed.

Lemma until_rbracket_spec (s : jsstring) :
  exists post,
    s = until_rbracket s ++ post
    /\ List.existsb (N.eqb rbracket) (until_rbracket s) = false
    /\ closes post.
Proof.
  induction s as [|c s (post & E & H & C)].
  - exists []; repeat split; left; reflexivity.
  - cbn [until_rbracket]. destruct (N.eqb c rbracket) eqn:Ec.
    + apply N.eqb_eq in Ec; subst c.
      exists (rbracket :: s); repeat split. right; eauto.
    + exists post; cbn [app List.existsb].
      rewrite <- E, H, N.eqb_sym, Ec; repeat split. exact C.
Qed.

Lemma match_command_Some (body capture : jsstring) :
  match_command body = Some capture <-> command_capture body capture.
Proof.
  split.
  - induction body as [|c body IH]; [discriminate|].
    cbn [match_command]. intros H.
    assert (Later : match_command body = Some capture ->
                    (forall rest, c :: body = lit "command=" ++ rest -> closes rest) ->
                    command_capture (c :: body) capture).
    { intros M F. destruct (IH M) as (pre & post & E & N & X & C & L).
      subst body. exists (c :: pre), post. repeat split; auto.
      intros [|c' pre'] rest' E' Hlen.
      - apply F. exact E'.
      - cbn [app] in E'. injection E' as -> E'.
        apply (L pre' rest'); [exact E' | simpl in Hlen; lia]. }
    destruct (strip_prefix (lit "command=") (c :: body)) as [rest|] eqn:P.
    + apply strip_prefix_Some in P.
      destruct (until_rbracket rest) as [|d u] eqn:U.
      * apply Later; [exact H|]. intros rest0 E0.
        rewrite P in E0. apply List.app_inv_head in E0; subst rest0.
        destruct (until_rbracket_spec rest) as (post & E & _ & C).
        rewrite U in E; rewrite E; exact C.
      * injection H as <-.
        destruct (until_rbracket_spec rest) as (post & E & X & C).
        rewrite U in E, X.
        exists [], post. rewrite P, E. repeat split; auto; [discriminate|].
        intros pre' rest' _ Hlen; simpl in Hlen; lia.
    + apply Later; [exact H|]. intros rest0 E0.
      apply strip_prefix_Some in E0. congruence.
  - intros (pre & post & E & N & X & C & L). subst body.
    induction pre as [|c pre IH].
    + cbn [app]. change (lit "command=" ++ capture ++ post)
        with (99%N :: List.tl (lit "command=") ++ capture ++ post).
      cbn [match_command].
      change (99%N :: List.tl (lit "command=") ++ capture ++ post)
        with (lit "command=" ++ capture ++ post).
      rewrite (proj2 (strip_prefix_Some _ _ _) eq_refl).
      rewrite (until_rbracket_capture _ _ X C).
      destruct capture; [congruence | reflexivity].
    + cbn [app match_command].
      assert (IH' : match_command (pre ++ lit "command=" ++ capture ++ post)
                    = Some capture).
      { apply IH. intros pre' rest' E' Hlen.
        apply (L (c :: pre') rest'); [cbn [app]; rewrite E'; reflexivity|].
        simpl; lia. }
      destruct (strip_prefix (lit "command=")
                  (c :: pre ++ lit "command=" ++ capture ++ post))
        as [rest|] eqn:P; [|exact IH'].
      apply strip_prefix_Some in P.
      rewrite (until_rbracket_closes rest); [exact IH'|].
      apply (L [] rest); [exact P | simpl; lia].
Qed.

Lemma match_command_None (body : jsstring) :
  match_command body = None <-> no_command_capture body.
Proof.
  split.
  - intros H pre rest E.
    destruct (until_rbracket rest) as [|d u] eqn:U.
    + destruct (until_rbracket_spec rest) as (post & Er & _ & C).
      rewrite U in Er; rewrite Er; exact C.
    + exfalso.
      assert (Hex : exists cap, match_command body = Some cap);
        [|destruct Hex as [cap Hc]; congruence].
      clear H. subst body. induction pre as [|c pre IH].
      * change (lit "command=" ++ rest)
          with (99%N :: List.tl (lit "command=") ++ rest).
        cbn [app match_command].
        change (99%N :: List.tl (lit "command=") ++ rest)
          with (lit "command=" ++ rest).
        rewrite (proj2 (strip_prefix_Some _ _ _) eq_refl), U. eauto.
      * cbn [app match_command].
        destruct (strip_prefix _ _) as [j|]; [|exact IH].
        destruct (until_rbracket j); [exact IH | eauto].
  - intros F. destruct (match_command body) as [cap|] eqn:M; [|reflexivity].
    apply match_command_Some in M as (pre & post & E & N & X & C & L).
    destruct (F pre (cap ++ post) E) as [E0 | [r E0]].
    + destruct cap; [congruence | discriminate].
    + destruct cap as [|d cap]; [congruence|].
      cbn [app] in E0; injection E0 as -> _.
      cbn [List.existsb] in X. rewrite N.eqb_refl in X. discriminate.
Qed.

Lemma words_nil_iff (s : jsstring) :
  words s = [] <-> List.forallb is_ws s = true.
Proof.
  induction s as [|c s IH]; [split; reflexivity|].
  cbn [words List.forallb].
  destruct (is_ws c); [exact IH|].
  split; [|discriminate].
  destruct s as [|c' s]; [discriminate|].
  destruct (is_ws c'); [discriminate|].
  intros H; exfalso; exact (push_front_nonempty _ _ H).
Qed.

Lemma words_app_nonempty (a b c : jsstring) :
  words b <> [] -> words (a ++ b ++ c) <> [].
Proof.
  rewrite !words_nil_iff, !List.forallb_app.
  destruct (List.forallb is_ws b); [congruence|].
  rewrite andb_false_r; discriminate.
Qed.

Lemma existsb_ltrim (f : char16 -> bool) (s : jsstring) :
  List.existsb f s = false -> List.existsb f (ltrim s) = false.
Proof.
  induction s as [|c s IH]; [reflexivity|].
  cbn [ltrim]. destruct (is_ws c); [|auto].
  cbn [List.existsb]. rewrite orb_false_iff. intros [_ H]; auto.
Qed.

Lemma existsb_rtrim (f : char16 -> bool) (s : jsstring) :
  List.existsb f s = false -> List.existsb f (rtrim s) = false.
Proof.
  induction s as [|c s IH]; [reflexivity|].
  cbn [rtrim List.existsb]. rewrite orb_false_iff. intros [Hc H].
  specialize (IH H).
  destruct (rtrim s); [destruct (is_ws c)|]; cbn [List.existsb] in *;
    rewrite ?Hc, ?IH; reflexivity.
Qed.

Lemma drop_final_rbracket_without (s : jsstring) :
  List.existsb (N.eqb rbracket) s = false -> drop_final_rbracket s = s.
Proof.
  induction s as [|c s IH]; [reflexivity|].
  cbn [List.existsb]. rewrite orb_false_iff. intros [Hc H].
  destruct s as [|d s]; cbn [drop_final_rbracket].
  - rewrite N.eqb_sym, Hc; reflexivity.
  - f_equal. exact (IH H).
Qed.

(** The capture of the regular expression holds no [']'], so that the
    removal of a final bracket never removes anything. *)
Lemma drop_final_rbracket_capture (capture : jsstring) :
  List.existsb (N.eqb rbracket) capture = false ->
  drop_final_rbracket (trim capture) = trim capture.
Proof.
  intros H. apply drop_final_rbracket_without.
  unfold trim. apply existsb_rtrim, existsb_ltrim, H.
Qed.

Lemma command_of_parts_words (s : jsstring) :
  command_of_parts (split_ws (trim s))
  = command_of_tokens (List.hd [] (words s)) (List.tl (words s)).
Proof.
  unfold command_of_parts, command_of_tokens, slice1.
  rewrite hd_split_ws_trim, tl_split_ws_trim; reflexivity.
Qed.

Lemma words_token_app (t s : jsstring) :
  is_token t -> starts_ws s = true \/ s = [] ->
  words (t ++ s) = t :: words s.
Proof.
  intros [N W] S. induction t as [|c t IH]; [congruence|].
  cbn [List.existsb] in W. apply orb_false_iff in W as [Wc W].
  destruct t as [|d t].
  - cbn [app words]. rewrite Wc.
    destruct S as [S | ->]; [|reflexivity].
    destruct s as [|c' s]; [discriminate|].
    simpl in S; rewrite S; reflexivity.
  - change (words ((c :: d :: t) ++ s)) with
      (if is_ws c then words ((d :: t) ++ s)
       else if is_ws d then [c] :: words ((d :: t) ++ s)
            else push_front c (words ((d :: t) ++ s))).
    rewrite IH by (discriminate || exact W).
    cbn [List.existsb] in W. apply orb_false_iff in W as [Wd _].
    rewrite Wc, Wd; reflexivity.
Qed.

(** A string [<cmd> <args...>] has its parts as words. *)
Lemma words_join_spaces (tokens : list jsstring) :
  List.Forall is_token tokens -> words (join_spaces tokens) = tokens.
Proof.
  induction 1 as [|t rest Ht Hrest IH]; [reflexivity|].
  destruct rest as [|t' rest].
  - cbn [join_spaces]. rewrite <- (List.app_nil_r t) at 1.
    rewrite (words_token_app t [] Ht) by (right; reflexivity). reflexivity.
  - change (join_spaces (t :: t' :: rest))
      with (t ++ 32%N :: join_spaces (t' :: rest)).
    rewrite (words_token_app t _ Ht) by (left; reflexivity).
    change (words (32%N :: join_spaces (t' :: rest)))
      with (words (join_spaces (t' :: rest))).
    rewrite IH; reflexivity.
Qed.

Section ParserProperties.

Variable JSON_parse : jsstring -> option jsvalue.

Lemma parseMessage_string (body s : jsstring) :
  JSON_parse body = Some (JStr s) ->
  parseMessage JSON_parse body
  = Some (command_of_tokens (List.hd [] (words s)) (List.tl (words s))).
Proof.
  intros P. unfold parseMessage. rewrite P, command_of_parts_words.
  reflexivity.
Qed.

(** C4.  When the body decodes to a JSON string, the descriptor has the
    first word of that string for command, the other words in their order
    for arguments, and no working directory. *)
Theorem parseMessage_json_string (body s cmd : jsstring) (rest : list jsstring) :
  JSON_parse body = Some (JStr s) ->
  words s = cmd :: rest ->
  parseMessage JSON_parse body
  = Some {| command := cmd;
            args := Some (JArr (List.map JStr rest));
            cwd := None |}.
Proof.
  intros P W. rewrite (parseMessage_string body s P), W. reflexivity.
Qed.

(** The same for the literal form [<cmd> <args...>]. *)
Lemma parseMessage_joined_tokens
  (body cmd : jsstring) (rest : list jsstring) :
  JSON_parse body = Some (JStr (join_spaces (cmd :: rest))) ->
  List.Forall is_token (cmd :: rest) ->
  parseMessage JSON_parse body = Some (command_of_tokens cmd rest).
Proof.
  intros P T.
  rewrite (parseMessage_string body _ P), (words_join_spaces _ T).
  reflexivity.
Qed.

Lemma parseMessage_fallback_blank (body : jsstring) :
  words body = [] -> parseMessage_fallback body = None.
Proof.
  intros W. unfold parseMessage_fallback.
  rewrite (proj2 (trim_nil_words body) W). reflexivity.
Qed.

Lemma parseMessage_fallback_capture (body capture : jsstring) :
  command_capture body capture ->
  words capture <> [] ->
  parseMessage_fallback body
  = Some (command_of_tokens (List.hd [] (words capture))
                            (List.tl (words capture))).
Proof.
  intros C W. unfold parseMessage_fallback.
  rewrite (proj2 (match_command_Some body capture) C).
  destruct C as (pre & post & E & _ & X & _).
  destruct (trim body) eqn:T.
  - exfalso. apply trim_nil_words in T.
    rewrite E, List.app_assoc in T. exact (words_app_nonempty _ _ _ W T).
  - rewrite (drop_final_rbracket_capture _ X), command_of_parts_words.
    reflexivity.
Qed.

Lemma parseMessage_fallback_whole (body : jsstring) :
  no_command_capture body ->
  words body <> [] ->
  parseMessage_fallback body
  = Some (command_of_tokens (List.hd [] (words body)) (List.tl (words body))).
Proof.
  intros C W. unfold parseMessage_fallback.
  rewrite (proj2 (match_command_None body) C).
  destruct (trim body) eqn:T.
  - apply trim_nil_words in T. congruence.
  - rewrite <- T, command_of_parts_words. reflexivity.
Qed.

(** C5 (as amended).  When JSON decoding fails: a body without any word is
    a parse failure; a body in which [command=] is followed by a character
    other than [']'] gives the words of the text between the first such
    [command=] and the next [']'] (or the end of the body), when there are
    any; any other body gives its own words. *)
Theorem parseMessage_plain_text (body : jsstring) :
  JSON_parse body = None ->
  (words body = [] -> parseMessage JSON_parse body = None)
  /\ (forall capture cmd rest,
        command_capture body capture -> words capture = cmd :: rest ->
        parseMessage JSON_parse body = Some (command_of_tokens cmd rest))
  /\ (forall cmd rest,
        no_command_capture body -> words body = cmd :: rest ->
        parseMessage JSON_parse body = Some (command_of_tokens cmd rest)).
Proof.
  intros P. unfold parseMessage. rewrite P. repeat split.
  - apply parseMessage_fallback_blank.
  - intros capture cmd rest C W.
    rewrite (parseMessage_fallback_capture body capture C), W by congruence.
    reflexivity.
  - intros cmd rest C W.
    rewrite (parseMessage_fallback_whole body C), W by congruence.
    reflexivity.
Qed.

(** A parsed message always has arguments, and truthy ones: the executor
    never takes them from the command of a message that came through the
    parser. *)
Lemma parseMessage_args_truthy (body : jsstring) (cmd : CommandMessage) :
  parseMessage JSON_parse body = Some cmd -> truthy (args cmd) = true.
Proof.
  assert (F : forall b, parseMessage_fallback b = Some cmd ->
                truthy (args cmd) = true).
  { intros b. unfold parseMessage_fallback.
    destruct (trim b); [discriminate|].
    destruct (match_command b); intros H; injection H as <-; reflexivity. }
  unfold parseMessage.
  destruct (JSON_parse body) as [parsed|]; [|apply F].
  assert (O : match get_property parsed (lit "command") with
              | None => parseMessage_fallback body
              | Some (Some (JStr (c :: r))) =>
                  Some {| command := c :: r;
                          args := match get_property parsed (lit "args") with
                                  | Some a => if truthy a then a else Some (JArr [])
                                  | None => Some (JArr [])
                                  end;
                          cwd := match get_property parsed (lit "cwd") with
                                 | Some d => d
                                 | None => None
                                 end |}
              | Some _ => None
              end = Some cmd -> truthy (args cmd) = true).
  { destruct (get_property parsed (lit "command"))
      as [[[ | | | [|c r] | | ]|]|]; try discriminate; [|apply F].
    intros H; injection H as <-. cbn [args].
    destruct (get_property parsed (lit "args")) as [a|]; [|reflexivity].
    destruct (truthy a) eqn:T; [exact T | reflexivity]. }
  destruct parsed; try exact O.
  intros H; injection H as <-; reflexivity.
Qed.

(** Where the command of a parsed message cannot be empty: a structured
    message, and a plain-text body without a [command=] capture. *)
Lemma parseMessage_object_command (body : jsstring) members cmd :
  JSON_parse body = Some (JObj members) ->
  parseMessage JSON_parse body = Some cmd -> command cmd <> [].
Proof.
  intros P. unfold parseMessage. rewrite P. cbn [get_property].
  destruct (own_property (lit "command") members) as [[ | | | [|c r] | | ]|];
    try discriminate.
  intros H; injection H as <-. discriminate.
Qed.

Lemma parseMessage_whole_body_command (body : jsstring) cmd :
  JSON_parse body = None -> no_command_capture body ->
  parseMessage JSON_parse body = Some cmd -> command cmd <> [].
Proof.
  intros P C. unfold parseMessage. rewrite P.
  destruct (words body) as [|w ws] eqn:W.
  - rewrite parseMessage_fallback_blank by exact W. discriminate.
  - rewrite (parseMessage_fallback_whole body C), W by congruence.
    intros H; injection H as <-. cbn.
    pose proof (words_spec body) as F. rewrite W in F.
    inversion F as [|? ? [N _] _]; exact N.
Qed.

End ParserProperties.

(** C8 fails on the code: a JSON string without any word parses to a
    descriptor whose command is empty. *)
Lemma parseMessage_empty_command :
  parseMessage JSON.parse (Sample.quoted "")
  = Some {| command := []; args := Some (JArr []); cwd := None |}.
Proof. reflexivity. Qed.

Lemma parseMessage_blank_capture :
  parseMessage JSON.parse (lit "command= ]")
  = Some {| command := []; args := Some (JArr []); cwd := None |}.
Proof. reflexivity. Qed.

(** A body that decodes to [null] ends in the plain-text fallback too: the
    read of [parsed.command] throws inside the [try]. *)
Lemma parseMessage_null_body :
  JSON.parse (lit "null") = Some JNull
  /\ parseMessage JSON.parse (lit "null")
     = Some (command_of_tokens (lit "null") []).
Proof. split; reflexivity. Qed.

Lemma parseMessage_json_string_witness :
  parseMessage JSON.parse (Sample.quoted "ls -la /tmp")
  = Some {| command := lit "ls";
            args := Some (JArr [JStr (lit "-la"); JStr (lit "/tmp")]);
            cwd := None |}.
Proof.
  apply (parseMessage_json_string JSON.parse (Sample.quoted "ls -la /tmp")
           (lit "ls -la /tmp") (lit "ls") [lit "-la"; lit "/tmp"]);
    reflexivity.
Defined.

Lemma parseMessage_plain_text_witness :
  parseMessage JSON.parse
    (lit "sqs_job [instanceId=i-0abc, command=git clone repo]")
  = Some (command_of_tokens (lit "git") [lit "clone"; lit "repo"]).
Proof.
  apply (proj1 (proj2 (parseMessage_plain_text JSON.parse
           (lit "sqs_job [instanceId=i-0abc, command=git clone repo]")
           eq_refl)) (lit "git clone repo"));
    [apply match_command_Some|]; reflexivity.
Defined.

(** C5 as stated fails on a body in which nothing but [']'] follows
    [command=] (the code then reads the whole body), and on a body with text
    after the first [']'] (the code stops there). *)
Lemma parseMessage_plain_text_counterexample :
  JSON.parse (lit "command=]") = None
  /\ after_literal (lit "command=") (lit "command=]") = Some (lit "]")
  /\ parseMessage JSON.parse (lit "command=]")
     = Some (command_of_tokens (lit "command=]") [])
  /\ parseMessage JSON.parse (lit "command=]")
     <> fallback_as_specified (lit "command=]")
  /\ JSON.parse (lit "command=echo a]b") = None
  /\ fallback_as_specified (lit "command=echo a]b")
     = Some (command_of_tokens (lit "echo") [lit "a]b"])
  /\ parseMessage JSON.parse (lit "command=echo a]b")
     = Some (command_of_tokens (lit "echo") [lit "a"])
  /\ parseMessage JSON.parse (lit "command=echo a]b")
     <> fallback_as_specified (lit "command=echo a]b").
Proof. repeat split; discriminate. Qed.

(** ** JSON codec *)

Module JSONFacts.
Import JSON.

Lemma hex_val_digit (n : N) : (n < 16)%N -> hex_val (hex_digit n) = Some n.
Proof.
  intros H.
  assert (C : List.In n [0; 1; 2; 3; 4; 5; 6; 7; 8; 9; 10; 11; 12; 13; 14; 15]%N)
    by (simpl; lia).
  simpl in C.
  repeat (destruct C as [<- | C]; [reflexivity|]). contradiction.
Qed.

Lemma hex4_escape (c : char16) :
  (c < 65536)%N ->
  hex4 (hex_digit ((c / 4096) mod 16)) (hex_digit ((c / 256) mod 16))
       (hex_digit ((c / 16) mod 16)) (hex_digit (c mod 16)) = Some c.
Proof.
  intros H. unfold hex4.
  rewrite !hex_val_digit by (apply N.mod_lt; discriminate).
  f_equal.
  change 4096%N with (16 * 16 * 16)%N. change 256%N with (16 * 16)%N.
  rewrite <- !N.Div0.div_div.
  pose proof (N.div_mod c 16).
  pose proof (N.div_mod (c / 16) 16).
  pose proof (N.div_mod (c / 16 / 16) 16).
  pose proof (N.mod_lt c 16).
  pose proof (N.mod_lt (c / 16) 16).
  pose proof (N.mod_lt (c / 16 / 16) 16).
  assert (c / 16 / 16 / 16 < 16)%N
    by (do 3 apply N.Div0.div_lt_upper_bound; lia).
  rewrite (N.mod_small (c / 16 / 16 / 16) 16) by assumption.
  lia.
Qed.

Lemma parse_string_body_plain (c : char16) (r : jsstring) :
  c <> 34%N -> c <> 92%N -> (32 <= c)%N ->
  parse_string_body (c :: r) = keep c (parse_string_body r).
Proof.
  intros Q B L. cbn [parse_string_body].
  rewrite (proj2 (N.eqb_neq c 34) Q), (proj2 (N.eqb_neq c 92) B),
    (proj2 (N.ltb_ge c 32) L).
  reflexivity.
Qed.

Lemma parse_string_body_unicode (c : char16) (r : jsstring) :
  (c < 65536)%N ->
  parse_string_body (unicode_escape c ++ r) = keep c (parse_string_body r).
Proof.
  intros H. unfold unicode_escape. cbn [app parse_string_body N.eqb Pos.eqb].
  rewrite (hex4_escape c H). reflexivity.
Qed.

Lemma parse_string_body_one (c : char16) (r : jsstring) :
  is_high_surrogate c = false -> is_low_surrogate c = false ->
  parse_string_body (quote_one c ++ r) = keep c (parse_string_body r).
Proof.
  intros Hh Hl. unfold quote_one.
  destruct (N.eqb c 8) eqn:E8; [apply N.eqb_eq in E8; subst; reflexivity|].
  destruct (N.eqb c 9) eqn:E9; [apply N.eqb_eq in E9; subst; reflexivity|].
  destruct (N.eqb c 10) eqn:E10; [apply N.eqb_eq in E10; subst; reflexivity|].
  destruct (N.eqb c 12) eqn:E12; [apply N.eqb_eq in E12; subst; reflexivity|].
  destruct (N.eqb c 13) eqn:E13; [apply N.eqb_eq in E13; subst; reflexivity|].
  destruct (N.eqb c 34) eqn:E34; [apply N.eqb_eq in E34; subst; reflexivity|].
  destruct (N.eqb c 92) eqn:E92; [apply N.eqb_eq in E92; subst; reflexivity|].
  destruct (N.ltb c 32) eqn:L.
  - apply parse_string_body_unicode. apply N.ltb_lt in L. lia.
  - apply parse_string_body_plain.
    + apply N.eqb_neq, E34.
    + apply N.eqb_neq, E92.
    + apply N.ltb_ge, L.
Qed.

Lemma surrogate_plain (c : char16) :
  is_high_surrogate c = true \/ is_low_surrogate c = true ->
  c <> 34%N /\ c <> 92%N /\ (32 <= c)%N /\ (c < 65536)%N.
Proof.
  unfold is_high_surrogate, is_low_surrogate.
  rewrite !andb_true_iff, !N.leb_le. lia.
Qed.

(** Decoding undoes QuoteJSONString. *)
Lemma parse_string_body_quote (s rest : jsstring) :
  parse_string_body (quote_chars s ++ dquote :: rest) = Some (s, rest).
Proof.
  remember (List.length s) as n eqn:Hn.
  revert s Hn.
  induction n as [n IH] using lt_wf_ind. intros s Hn.
  destruct s as [|c s]; [reflexivity|].
  cbn [quote_chars].
  destruct (is_high_surrogate c) eqn:Hh.
  - destruct (surrogate_plain c (or_introl Hh)) as (Q & B & L & U).
    destruct s as [|d s].
    + rewrite parse_string_body_unicode by exact U. reflexivity.
    + destruct (is_low_surrogate d) eqn:Hd.
      * destruct (surrogate_plain d (or_intror Hd)) as (Q' & B' & L' & U').
        cbn [app].
        rewrite (parse_string_body_plain c _ Q B L),
          (parse_string_body_plain d _ Q' B' L').
        rewrite (IH (List.length s)); [reflexivity | subst n; simpl; lia | reflexivity].
      * rewrite <- List.app_assoc, parse_string_body_unicode by exact U.
        rewrite (IH (List.length (d :: s))); [reflexivity | subst n; simpl; lia | reflexivity].
  - destruct (is_low_surrogate c) eqn:Hl.
    + destruct (surrogate_plain c (or_intror Hl)) as (Q & B & L & U).
      rewrite <- List.app_assoc, parse_string_body_unicode by exact U.
      rewrite (IH (List.length s)); [reflexivity | subst n; simpl; lia | reflexivity].
    + rewrite <- List.app_assoc, parse_string_body_one by assumption.
      rewrite (IH (List.length s)); [reflexivity | subst n; simpl; lia | reflexivity].
Qed.

Lemma read_digits_chars (u : Decimal.uint) (rest : jsstring) :
  no_digit_ahead rest -> read_digits (chars_of_uint u ++ rest) = (u, rest).
Proof.
  intros H. induction u; cbn [chars_of_uint app read_digits digit_of_char];
    rewrite ?IHu; try reflexivity.
  destruct rest as [|c r]; [reflexivity|].
  cbn [read_digits]. simpl in H. rewrite H. reflexivity.
Qed.

Lemma to_uint_normal (n : N) : Decimal.unorm (N.to_uint n) = N.to_uint n.
Proof.
  rewrite <- (Unsigned.of_to n) at 2. symmetry. apply Unsigned.to_of.
Qed.

Lemma normal_leading_zero (u : Decimal.uint) :
  Decimal.unorm (Decimal.D0 u) = Decimal.D0 u -> u = Decimal.Nil.
Proof.
  intros H. destruct (Decimal.uint_eq_dec u Decimal.Nil) as [E|E]; [exact E|].
  pose proof (nb_digits_unorm u E) as L.
  change (Decimal.unorm (Decimal.D0 u)) with (Decimal.unorm u) in H.
  rewrite H in L. simpl in L. lia.
Qed.

Lemma read_int_chars (n : N) (rest : jsstring) :
  no_digit_ahead rest ->
  read_int (chars_of_uint (N.to_uint n) ++ rest) = Some (N.to_uint n, rest).
Proof.
  intros H. pose proof (to_uint_normal n) as Hn.
  assert (Hnil : N.to_uint n <> Decimal.Nil).
  { intros E. rewrite E in Hn. discriminate. }
  unfold read_int.
  destruct (N.to_uint n) as [|u|u|u|u|u|u|u|u|u|u] eqn:E; [congruence|..].
  1: apply normal_leading_zero in Hn; subst u; reflexivity.
  all: cbn [chars_of_uint app]; cbv iota;
    cbn [read_digits digit_of_char]; rewrite (read_digits_chars u rest H);
    reflexivity.
Qed.

Lemma delimiter_no_digit (c : char16) (r : jsstring) :
  delimiter c -> no_digit_ahead (c :: r).
Proof. intros [-> | ->]; reflexivity. Qed.

Lemma to_uint_head (n : N) (rest : jsstring) :
  exists d r, chars_of_uint (N.to_uint n) ++ rest = d :: r /\ d <> 45%N.
Proof.
  pose proof (to_uint_normal n) as Hn.
  destruct (N.to_uint n) eqn:E; [discriminate|..];
    cbn [chars_of_uint app]; eexists _, _; (split; [reflexivity | discriminate]).
Qed.

(** Decoding undoes the printing of an integer, up to the next delimiter. *)
Lemma parse_number_integer (z : Z) (c : char16) (r : jsstring) :
  delimiter c ->
  parse_number (integer_to_string z ++ c :: r)
  = Some (JNum (z <? 0)%Z (Z.abs_N z) 0, c :: r).
Proof.
  intros D. unfold integer_to_string.
  assert (T : forall neg s,
             s = chars_of_uint (N.to_uint (Z.abs_N z)) ++ c :: r ->
             match read_int s with
             | None => None
             | Some (i, s2) =>
                 match read_frac s2 with
                 | None => None
                 | Some (f, s3) =>
                     match read_exp s3 with
                     | None => None
                     | Some (e, s4) =>
                         Some (JNum neg (N.of_uint (Decimal.app i f))
                                 (e - Z.of_nat (Decimal.nb_digits f)), s4)
                     end
                 end
             end = Some (JNum neg (Z.abs_N z) 0, c :: r)).
  { intros neg s ->.
    rewrite (read_int_chars _ _ (delimiter_no_digit c r D)).
    destruct D as [-> | ->]; cbn [read_frac read_exp N.eqb Pos.eqb orb];
      rewrite app_nil_r, Unsigned.of_to; reflexivity. }
  unfold parse_number.
  destruct (z <? 0)%Z.
  - cbn [app]. apply T. reflexivity.
  - cbn [app].
    destruct (to_uint_head (Z.abs_N z) (c :: r)) as (d & r' & E & Hd).
    rewrite E. symmetry in E.
    destruct d as [|p]; [exact (T false _ E)|].
    do 6 (destruct p as [p|p|]; try exact (T false _ E)).
    congruence.
Qed.

Lemma integer_head (z : Z) (rest : jsstring) :
  exists d r,
    integer_to_string z ++ rest = d :: r
    /\ List.In d [45; 48; 49; 50; 51; 52; 53; 54; 55; 56; 57]%N.
Proof.
  unfold integer_to_string. destruct (z <? 0)%Z.
  - eexists _, _; split; [reflexivity | left; reflexivity].
  - pose proof (to_uint_normal (Z.abs_N z)) as Hn.
    destruct (N.to_uint (Z.abs_N z)) eqn:E; [discriminate|..];
      cbn [chars_of_uint app]; eexists _, _;
      (split; [reflexivity | simpl; tauto]).
Qed.

Lemma parse_value_number_head (f : nat) (d : char16) (r : jsstring) :
  List.In d [45; 48; 49; 50; 51; 52; 53; 54; 55; 56; 57]%N ->
  parse_value (S f) (d :: r) = parse_number (d :: r).
Proof.
  intros C. simpl in C.
  repeat (destruct C as [<- | C]; [reflexivity|]). contradiction.
Qed.

Lemma parse_value_quoted (f : nat) (s rest : jsstring) :
  parse_value (S f) (QuoteJSONString s ++ rest) = Some (JStr s, rest).
Proof.
  unfold QuoteJSONString. cbn [app].
  rewrite <- List.app_assoc. cbn [app].
  cbn [parse_value]. unfold value_step.
  cbn [skip_ws is_json_ws dquote N.eqb Pos.eqb orb].
  rewrite parse_string_body_quote. reflexivity.
Qed.

Lemma parse_value_scalar (f : nat) (v : scalar) (c : char16) (r : jsstring) :
  delimiter c ->
  parse_value (S f) (stringify_scalar v ++ c :: r)
  = Some (value_of_scalar v, c :: r).
Proof.
  intros D. destruct v as [s | [|] | z]; cbn [stringify_scalar value_of_scalar].
  - apply parse_value_quoted.
  - reflexivity.
  - reflexivity.
  - destruct (integer_head z (c :: r)) as (d & r' & E & H).
    rewrite <- (parse_number_integer z c r D), E.
    apply parse_value_number_head, H.
Qed.

Lemma parse_members_stringify (ms : list (jsstring * scalar)) :
  forall (f : nat) (rest : jsstring),
    ms <> [] -> List.length ms < f ->
    parse_members f (stringify_members ms ++ 125%N :: rest)
    = Some (List.map member_value ms, rest).
Proof.
  induction ms as [|[k v] ms IH]; intros f rest N L; [congruence|].
  destruct f as [|f]; [lia|].
  assert (Hf : exists f', f = S f') by (destruct f; [simpl in L; lia | eauto]).
  destruct Hf as [f' ->].
  assert (Step : forall c r,
             delimiter c ->
             parse_members (S (S f')) (stringify_member (k, v) ++ c :: r)
             = match c :: r with
               | 44%N :: r4 =>
                   match parse_members (S f') r4 with
                   | Some (m, r5) => Some ((k, value_of_scalar v) :: m, r5)
                   | None => None
                   end
               | 125%N :: r4 => Some ([(k, value_of_scalar v)], r4)
               | _ => None
               end).
  { intros c r D. unfold stringify_member, QuoteJSONString. cbn [fst snd app].
    rewrite <- !List.app_assoc. cbn [app].
    cbn [parse_members]. unfold members_step, expect.
    cbn [skip_ws is_json_ws dquote N.eqb Pos.eqb orb].
    rewrite parse_string_body_quote. cbn [skip_ws is_json_ws N.eqb Pos.eqb orb].
    rewrite (parse_value_scalar f' v c r D).
    destruct D as [-> | ->]; reflexivity. }
  destruct ms as [|m ms].
  - cbn [stringify_members List.map].
    rewrite Step by (right; reflexivity). reflexivity.
  - change (stringify_members ((k, v) :: m :: ms))
      with (stringify_member (k, v) ++ 44%N :: stringify_members (m :: ms)).
    rewrite <- List.app_assoc. cbn [app].
    rewrite Step by (left; reflexivity).
    rewrite IH by (discriminate || (simpl in L |- *; lia)).
    reflexivity.
Qed.

Lemma stringify_members_length (ms : list (jsstring * scalar)) :
  List.length ms <= List.length (stringify_members ms).
Proof.
  induction ms as [|m ms IH]; [apply le_n|].
  destruct ms as [|m' ms].
  - unfold stringify_members, stringify_member, QuoteJSONString.
    simpl. lia.
  - change (stringify_members (m :: m' :: ms))
      with (stringify_member m ++ 44%N :: stringify_members (m' :: ms)).
    rewrite List.length_app. simpl List.length in IH |- *. lia.
Qed.

Lemma stringify_members_head (ms : list (jsstring * scalar)) (rest : jsstring) :
  ms <> [] -> exists r, stringify_members ms ++ rest = dquote :: r.
Proof.
  destruct ms as [|m [|m' ms]]; [congruence | |]; intros _;
    eexists; reflexivity.
Qed.

(** Decoding a serialised object gives back its members, in order. *)
Theorem parse_stringify_object (ms : list (jsstring * scalar)) :
  parse (stringify_object ms) = Some (JObj (List.map member_value ms)).
Proof.
  unfold parse, stringify_object.
  match goal with
  | |- context [parse_value ?n _] => remember n as fuel eqn:Hfuel
  end.
  assert (F : exists f, fuel = S f /\ List.length ms < f).
  { exists (fuel - 1).
    pose proof (stringify_members_length ms).
    simpl List.length in Hfuel. rewrite List.length_app in Hfuel.
    simpl in Hfuel. lia. }
  clear Hfuel. destruct F as (f & -> & L).
  destruct ms as [|m ms]; [reflexivity|].
  destruct (stringify_members_head (m :: ms) [125%N]) as [r E]; [discriminate|].
  cbn [parse_value]. unfold value_step.
  cbn [skip_ws is_json_ws N.eqb Pos.eqb orb].
  rewrite parse_members_stringify by (discriminate || exact L).
  unfold expect. rewrite E. reflexivity.
Qed.

(** *** Fuel *)

Lemma skip_ws_length (s : jsstring) :
  List.length (skip_ws s) <= List.length s.
Proof.
  induction s as [|c s IH]; [apply le_n|].
  cbn [skip_ws]. destruct (is_json_ws c); simpl; lia.
Qed.

Lemma strip_prefix_length (p s r : jsstring) :
  strip_prefix p s = Some r -> List.length s = List.length p + List.length r.
Proof.
  intros H. apply strip_prefix_Some in H. subst s. apply List.length_app.
Qed.

Lemma keep_length (c : char16) (x : option (jsstring * jsstring))
  (t r : jsstring) (n : nat) :
  keep c x = Some (t, r) ->
  (forall t' r', x = Some (t', r') -> List.length r' < n) ->
  List.length r < n.
Proof.
  destruct x as [[t' r']|]; [|discriminate].
  intros H X. injection H as _ <-. eauto.
Qed.

Lemma parse_string_body_length (s t r : jsstring) :
  parse_string_body s = Some (t, r) -> List.length r < List.length s.
Proof.
  remember (List.length s) as n eqn:Hn. revert s t r Hn.
  induction n as [n IH] using lt_wf_ind. intros s t r Hn.
  destruct s as [|c s]; [discriminate|].
  cbn [parse_string_body].
  assert (K : forall c' s', List.length s' < n ->
                keep c' (parse_string_body s') = Some (t, r) ->
                List.length r < n).
  { intros c' s' L H. apply (keep_length _ _ _ _ _ H).
    intros t' r' E. specialize (IH _ L s' t' r' eq_refl E). lia. }
  destruct (N.eqb c 34).
  - intros H; injection H as _ <-. subst n; simpl; lia.
  - destruct (N.eqb c 92).
    + destruct s as [|e s]; [discriminate|].
      destruct e as [|p]; [discriminate|].
      do 7 (try (destruct p as [p|p|]); try discriminate);
        try (apply K; subst n; simpl; lia).
      destruct s as [|h1 [|h2 [|h3 [|h4 s]]]]; try discriminate.
      destruct (hex4 h1 h2 h3 h4); [|discriminate].
      apply K; subst n; simpl; lia.
    + destruct (N.ltb c 32); [discriminate|].
      apply K; subst n; simpl; lia.
Qed.

Lemma read_digits_length (s : jsstring) :
  List.length (snd (read_digits s)) <= List.length s
  /\ (is_nil (fst (read_digits s)) = false ->
      List.length (snd (read_digits s)) < List.length s).
Proof.
  induction s as [|c s [IH _]]; [split; [apply le_n | discriminate]|].
  cbn [read_digits].
  destruct (digit_of_char c) as [d|]; [|split; [apply le_n | discriminate]].
  destruct (read_digits s) as [u r]. simpl in *. split; intros; lia.
Qed.

Lemma read_int_length (s : jsstring) (u : Decimal.uint) (r : jsstring) :
  read_int s = Some (u, r) -> List.length r < List.length s.
Proof.
  unfold read_int.
  assert (G : (let (u0, r0) := read_digits s in
               if is_nil u0 then @None (Decimal.uint * jsstring)
               else Some (u0, r0)) = Some (u, r) ->
              List.length r < List.length s).
  { pose proof (read_digits_length s) as [_ L].
    destruct (read_digits s) as [u0 r0]. simpl in L.
    destruct (is_nil u0); [discriminate|].
    intros H; injection H as _ <-. auto. }
  destruct s as [|c s]; [exact G|].
  destruct c as [|p]; [exact G|].
  do 6 (destruct p as [p|p|]; try exact G).
  intros H; injection H as _ <-. simpl; lia.
Qed.

Lemma read_frac_length (s : jsstring) (u : Decimal.uint) (r : jsstring) :
  read_frac s = Some (u, r) -> List.length r <= List.length s.
Proof.
  unfold read_frac.
  assert (G : Some (Decimal.Nil, s) = Some (u, r) ->
              List.length r <= List.length s).
  { intros H; injection H as _ <-. apply le_n. }
  destruct s as [|c s]; [exact G|].
  destruct c as [|p]; [exact G|].
  do 6 (destruct p as [p|p|]; try exact G).
  pose proof (read_digits_length s) as [L _].
  destruct (read_digits s) as [u0 r0]. simpl in L.
  destruct (is_nil u0); [discriminate|].
  intros H; injection H as _ <-. simpl; lia.
Qed.

Lemma read_exp_length (s : jsstring) (e : Z) (r : jsstring) :
  read_exp s = Some (e, r) -> List.length r <= List.length s.
Proof.
  unfold read_exp.
  destruct s as [|c s]; [intros H; injection H as _ <-; apply le_n|].
  destruct ((c =? 101) || (c =? 69))%N;
    [|intros H; injection H as _ <-; apply le_n].
  assert (G : forall (sign : bool) (r1 : jsstring),
             List.length r1 <= List.length s ->
             (let (u, r2) := read_digits r1 in
              if is_nil u then @None (Z * jsstring)
              else Some (if sign then (- Z.of_N (N.of_uint u))%Z
                         else Z.of_N (N.of_uint u), r2)) = Some (e, r) ->
             List.length r <= List.length (c :: s)).
  { intros sign r1 L1.
    pose proof (read_digits_length r1) as [L _].
    destruct (read_digits r1) as [u0 r0]. simpl in L.
    destruct (is_nil u0); [discriminate|].
    intros H; injection H as _ <-. simpl; lia. }
  destruct s as [|d s]; [apply (G false); apply le_n|].
  destruct d as [|p]; [apply (G false); apply le_n|].
  do 6 (destruct p as [p|p|]; try (apply (G false); apply le_n));
    first [apply (G true) | apply (G false)]; simpl; lia.
Qed.

Lemma parse_number_length (s : jsstring) (v : jsvalue) (r : jsstring) :
  parse_number s = Some (v, r) -> List.length r < List.length s.
Proof.
  unfold parse_number.
  assert (G : forall neg s1,
             List.length s1 <= List.length s ->
             match read_int s1 with
             | None => None
             | Some (i, s2) =>
                 match read_frac s2 with
                 | None => None
                 | Some (f, s3) =>
                     match read_exp s3 with
                     | None => None
                     | Some (e, s4) =>
                         Some (JNum neg (N.of_uint (Decimal.app i f))
                                 (e - Z.of_nat (Decimal.nb_digits f)), s4)
                     end
                 end
             end = Some (v, r) -> List.length r < List.length s).
  { intros neg s1 L1.
    destruct (read_int s1) as [[i s2]|] eqn:I; [|discriminate].
    apply read_int_length in I.
    destruct (read_frac s2) as [[f s3]|] eqn:Fr; [|discriminate].
    apply read_frac_length in Fr.
    destruct (read_exp s3) as [[e s4]|] eqn:X; [|discriminate].
    apply read_exp_length in X.
    intros H; injection H as _ <-. lia. }
  destruct s as [|c s]; [apply (G false); apply le_n|].
  destruct c as [|p]; [apply (G false); apply le_n|].
  do 6 (destruct p as [p|p|]; try (apply (G false); apply le_n)).
  apply G; simpl; lia.
Qed.


Lemma expect_length (c : char16) (s r : jsstring) :
  expect c s = Some r -> List.length r < List.length s.
Proof.
  unfold expect. pose proof (skip_ws_length s) as L.
  destruct (skip_ws s) as [|d r']; [discriminate|].
  destruct (N.eqb d c); [|discriminate].
  intros H; injection H as <-. simpl in L. lia.
Qed.

Section Consumption.

Variable value : jsstring -> option (jsvalue * jsstring).
Variable elements : jsstring -> option (list jsvalue * jsstring).
Variable members : jsstring -> option (list (jsstring * jsvalue) * jsstring).

Lemma value_step_consumes :
  consumes members -> consumes elements ->
  consumes (value_step members elements).
Proof.
  intros M E s v r. unfold value_step.
  pose proof (skip_ws_length s) as L0.
  destruct (skip_ws s) as [|c s0]; [discriminate|]. simpl in L0.
  destruct (N.eqb c 123).
  { destruct (expect 125%N s0) as [r'|] eqn:X.
    - apply expect_length in X. intros H; injection H as _ <-. lia.
    - destruct (members s0) as [[m r']|] eqn:Em; [|discriminate].
      apply M in Em. intros H; injection H as _ <-. lia. }
  destruct (N.eqb c 91).
  { destruct (expect 93%N s0) as [r'|] eqn:X.
    - apply expect_length in X. intros H; injection H as _ <-. lia.
    - destruct (elements s0) as [[m r']|] eqn:Em; [|discriminate].
      apply E in Em. intros H; injection H as _ <-. lia. }
  destruct (N.eqb c 34).
  { destruct (parse_string_body s0) as [[t r']|] eqn:Ps; [|discriminate].
    apply parse_string_body_length in Ps.
    intros H; injection H as _ <-. lia. }
  destruct (strip_prefix (lit "true") (c :: s0)) as [r'|] eqn:T.
  { apply strip_prefix_length in T. simpl in T.
    intros H; injection H as _ <-. lia. }
  destruct (strip_prefix (lit "false") (c :: s0)) as [r'|] eqn:Fa.
  { apply strip_prefix_length in Fa. simpl in Fa.
    intros H; injection H as _ <-. lia. }
  destruct (strip_prefix (lit "null") (c :: s0)) as [r'|] eqn:Nu.
  { apply strip_prefix_length in Nu. simpl in Nu.
    intros H; injection H as _ <-. lia. }
  intros H. apply parse_number_length in H. simpl in H. lia.
Qed.

Lemma elements_step_consumes :
  consumes value -> consumes elements ->
  consumes (elements_step value elements).
Proof.
  intros V E s vs r. unfold elements_step.
  destruct (value s) as [[v r0]|] eqn:Ev; [|discriminate]. apply V in Ev.
  destruct (expect 44%N r0) as [r1|] eqn:X.
  - apply expect_length in X.
    destruct (elements r1) as [[vs' r2]|] eqn:Ee; [|discriminate].
    apply E in Ee. intros H; injection H as _ <-. lia.
  - destruct (expect 93%N r0) as [r1|] eqn:Y; [|discriminate].
    apply expect_length in Y. intros H; injection H as _ <-. lia.
Qed.

Lemma members_step_consumes :
  consumes value -> consumes members ->
  consumes (members_step value members).
Proof.
  intros V M s ms r. unfold members_step.
  destruct (expect 34%N s) as [r0|] eqn:X0; [|discriminate].
  apply expect_length in X0.
  destruct (parse_string_body r0) as [[k r1]|] eqn:Ps; [|discriminate].
  apply parse_string_body_length in Ps.
  destruct (expect 58%N r1) as [r2|] eqn:X1; [|discriminate].
  apply expect_length in X1.
  destruct (value r2) as [[v r3]|] eqn:Ev; [|discriminate]. apply V in Ev.
  destruct (expect 44%N r3) as [r4|] eqn:X2.
  - apply expect_length in X2.
    destruct (members r4) as [[ms' r5]|] eqn:Em; [|discriminate].
    apply M in Em. intros H; injection H as _ <-. lia.
  - destruct (expect 125%N r3) as [r4|] eqn:X3; [|discriminate].
    apply expect_length in X3. intros H; injection H as _ <-. lia.
Qed.

(** A level depends on the levels below only through what they do on
    shorter texts. *)
Variable value' : jsstring -> option (jsvalue * jsstring).
Variable elements' : jsstring -> option (list jsvalue * jsstring).
Variable members' : jsstring -> option (list (jsstring * jsvalue) * jsstring).

Lemma value_step_ext (s : jsstring) :
  (forall x, List.length x < List.length s -> members x = members' x) ->
  (forall x, List.length x < List.length s -> elements x = elements' x) ->
  value_step members elements s = value_step members' elements' s.
Proof.
  intros M E. unfold value_step.
  pose proof (skip_ws_length s) as L0.
  destruct (skip_ws s) as [|c s0]; [reflexivity|]. simpl in L0.
  rewrite (M s0), (E s0) by lia. reflexivity.
Qed.

Lemma elements_step_ext (s : jsstring) :
  consumes value ->
  value s = value' s ->
  (forall x, List.length x + 2 <= List.length s -> elements x = elements' x) ->
  elements_step value elements s = elements_step value' elements' s.
Proof.
  intros V Ev E. unfold elements_step. rewrite <- Ev.
  destruct (value s) as [[v r0]|] eqn:Es; [|reflexivity]. apply V in Es.
  destruct (expect 44%N r0) as [r1|] eqn:X; [|reflexivity].
  apply expect_length in X. rewrite (E r1) by lia. reflexivity.
Qed.

Lemma members_step_ext (s : jsstring) :
  consumes value ->
  (forall x, List.length x < List.length s -> value x = value' x) ->
  (forall x, List.length x + 2 <= List.length s -> members x = members' x) ->
  members_step value members s = members_step value' members' s.
Proof.
  intros V Ev M. unfold members_step.
  destruct (expect 34%N s) as [r0|] eqn:X0; [|reflexivity].
  apply expect_length in X0.
  destruct (parse_string_body r0) as [[k r1]|] eqn:Ps; [|reflexivity].
  apply parse_string_body_length in Ps.
  destruct (expect 58%N r1) as [r2|] eqn:X1; [|reflexivity].
  apply expect_length in X1.
  rewrite <- (Ev r2) by lia.
  destruct (value r2) as [[v r3]|] eqn:Es; [|reflexivity]. apply V in Es.
  destruct (expect 44%N r3) as [r4|] eqn:X2; [|reflexivity].
  apply expect_length in X2. rewrite (M r4) by lia. reflexivity.
Qed.

End Consumption.

(** Each production consumes at least one character. *)
Lemma parse_consumes (f : nat) :
  consumes (parse_value f) /\ consumes (parse_elements f)
  /\ consumes (parse_members f).
Proof.
  induction f as [|f (V & E & M)].
  - repeat split; intros s a r H; discriminate.
  - repeat split; cbn [parse_value parse_elements parse_members].
    + apply value_step_consumes; assumption.
    + apply elements_step_consumes; assumption.
    + apply members_step_consumes; assumption.
Qed.

(** Beyond twice the length of the text, one more unit of fuel changes
    nothing. *)
Lemma parse_fuel_step (f : nat) :
  (forall s, 2 * List.length s + 1 <= f ->
             parse_value (S f) s = parse_value f s)
  /\ (forall s, 2 * List.length s + 2 <= f ->
                parse_elements (S f) s = parse_elements f s)
  /\ (forall s, 2 * List.length s + 2 <= f ->
                parse_members (S f) s = parse_members f s).
Proof.
  induction f as [|f (V & E & M)]; [repeat split; intros s L; lia|].
  destruct (parse_consumes (S f)) as (CV & _ & _).
  repeat split; intros s L.
  - change (value_step (parse_members (S f)) (parse_elements (S f)) s
            = value_step (parse_members f) (parse_elements f) s).
    apply value_step_ext; intros x Lx; [apply M | apply E]; lia.
  - change (elements_step (parse_value (S f)) (parse_elements (S f)) s
            = elements_step (parse_value f) (parse_elements f) s).
    apply elements_step_ext; [exact CV | apply V; lia|].
    intros x Lx. apply E. lia.
  - change (members_step (parse_value (S f)) (parse_members (S f)) s
            = members_step (parse_value f) (parse_members f) s).
    apply members_step_ext; [exact CV | |]; intros x Lx; [apply V | apply M]; lia.
Qed.

(** The fuel of [parse] is enough: more of it gives the same answer, so
    that a [None] is a syntax error of the text and never a lack of fuel. *)
Theorem parse_value_fuel (f : nat) (s : jsstring) :
  2 * List.length s + 2 <= f ->
  parse_value f s = parse_value (2 * List.length s + 2) s.
Proof.
  intros L. induction L as [|f L IH]; [reflexivity|].
  rewrite <- IH. apply (proj1 (parse_fuel_step f)). lia.
Qed.

End JSONFacts.

(** ** Effects *)

Section LifecycleProperties.

Variable JSON_parse : jsstring -> option jsvalue.
Variable cfg : config.
Variable env : environment.

Lemma sendResponse_run (cid : jsstring) (result : ExecutionResult) (h : history) :
  exists t,
    sendResponse cfg env cid result h = (Normal tt, h ++ t)
    /\ response_events cid result t.
Proof.
  unfold sendResponse, response_events.
  destruct (getResponseQueueName cfg) as [|n0 name].
  - exists []. rewrite List.app_nil_r. auto.
  - unfold try_catch, bind, call, ret.
    destruct (getQueueUrl_answer env h (n0 :: name)) as [[[|u rl]|]|e].
    + exists [GetQueueUrl (n0 :: name)]. split; [reflexivity | eauto].
    + destruct (sendMessage_answer env (h ++ [GetQueueUrl (n0 :: name)]) (u :: rl)
                  (JSON.stringify_object (response_object cid result)) cid)
        as [[]|e];
        (eexists; split;
         [rewrite <- List.app_assoc; reflexivity
         | right; right; eexists _, _; reflexivity]).
    + exists [GetQueueUrl (n0 :: name)]. split; [reflexivity | eauto].
    + exists [GetQueueUrl (n0 :: name)]. split; [reflexivity | eauto].
Qed.

Lemma delete_message_run (receiptHandle : option jsstring) (h : history) :
  delete_message cfg env receiptHandle h
  = (Normal tt,
     h ++ match receiptHandle with
          | Some (c :: r) => [DeleteMessage (QUEUE_URL cfg) (c :: r)]
          | _ => []
          end).
Proof.
  unfold delete_message.
  destruct receiptHandle as [[|c r]|]; unfold ret;
    rewrite ?List.app_nil_r; try reflexivity.
  unfold try_catch, call, ret.
  destruct (deleteMessage_answer env h (QUEUE_URL cfg) (c :: r)) as [[]|e];
    reflexivity.
Qed.

(** [executeCommand] in closed form: it never throws; it calls [Bun.spawn]
    at most once. *)
Lemma executeCommand_run (cmd : CommandMessage) (h : history) :
  executeCommand env cmd h =
  match argv_of cmd with
  | None => (Normal (failure (typeError_message env NotIterable)), h)
  | Some argv =>
      (Normal match spawn_answer env h argv (cwd cmd) with
              | Normal p => result_of_exit p
              | Throw e => failure (describe e)
              end,
       h ++ [Spawn argv (cwd cmd)])
  end.
Proof.
  unfold executeCommand, argv_of, try_catch, bind; cbv zeta.
  destruct (negb (truthy (args cmd))) eqn:T.
  - unfold spread, call, ret.
    destruct (spawn_answer env h _ (cwd cmd)); reflexivity.
  - destruct (args cmd) as [[ | | | | | ]|]; try discriminate T;
      unfold spread, call, ret, raise;
      try reflexivity;
      destruct (spawn_answer env h _ (cwd cmd)); reflexivity.
Qed.

Lemma log_executing_run (cmd : CommandMessage) (h : history) :
  if log_raises env cmd
  then exists e, log_executing env cmd h = (Throw e, h)
  else log_executing env cmd h = (Normal tt, h).
Proof.
  unfold log_raises, log_executing.
  destruct (truthy (args cmd)); [|reflexivity].
  destruct (args cmd) as [[ | | | | elements | ]|]; cbn [andb];
    try (eexists; reflexivity).
  destruct (first_raised (toString_raises env (join_depth env)) elements);
    [eexists; reflexivity | reflexivity].
Qed.

(** Arguments of the declared type, an array of strings, can be logged. *)
Lemma log_raises_strings (cmd : CommandMessage) (given : list jsstring) :
  args cmd = Some (JArr (List.map JStr given)) -> log_raises env cmd = false.
Proof.
  intros E. unfold log_raises. rewrite E. cbn [truthy andb]. clear E.
  induction given as [|g given IH]; [reflexivity | exact IH].
Qed.

(** [sendResponse] in closed form: the lookup when there is a response
    queue, and the send when the lookup gave a URL. *)
Lemma sendResponse_closed (cid : jsstring) (result : ExecutionResult) (h : history) :
  sendResponse cfg env cid result h
  = (Normal tt,
     h ++ match getResponseQueueName cfg with
          | [] => []
          | n :: name =>
              GetQueueUrl (n :: name)
              :: match getQueueUrl_answer env h (n :: name) with
                 | Normal (Some (u :: rl)) =>
                     [SendMessage (u :: rl)
                        (JSON.stringify_object (response_object cid result)) cid]
                 | _ => []
                 end
          end).
Proof.
  unfold sendResponse.
  destruct (getResponseQueueName cfg) as [|n0 name].
  - unfold ret. rewrite List.app_nil_r. reflexivity.
  - unfold try_catch, bind, call, ret.
    destruct (getQueueUrl_answer env h (n0 :: name)) as [[[|u rl]|]|e];
      try reflexivity.
    destruct (sendMessage_answer env (h ++ [GetQueueUrl (n0 :: name)]) (u :: rl)
                (JSON.stringify_object (response_object cid result)) cid)
      as [[]|e];
      rewrite <- List.app_assoc; reflexivity.
Qed.

Lemma processMessage_parse_failure (msg : Message) (h : history) :
  parseMessage JSON_parse (or_string (Body msg) []) = None ->
  processMessage JSON_parse cfg env msg h = (Normal tt, h).
Proof. intros P. unfold processMessage. rewrite P. reflexivity. Qed.

Lemma processMessage_rejected (msg : Message) (cmd : CommandMessage) (h : history) :
  parseMessage JSON_parse (or_string (Body msg) []) = Some cmd ->
  isCommandAllowed (command cmd) = false ->
  exists t,
    processMessage JSON_parse cfg env msg h
    = (Normal tt, h ++ t ++ acknowledgment cfg (ReceiptHandle msg))
    /\ match correlationId_of msg with
       | [] => t = []
       | _ :: _ =>
           response_events (correlationId_of msg) (failure (rejection_text cmd)) t
       end.
Proof.
  intros P A. unfold processMessage. rewrite P, A. cbn [negb]. unfold bind.
  destruct (correlationId_of msg) as [|c cid].
  - exists []. unfold ret. rewrite delete_message_run. split; reflexivity.
  - destruct (sendResponse_run (c :: cid) (failure (rejection_text cmd)) h)
      as (t & E & R).
    exists t. unfold failure in E. rewrite E, delete_message_run.
    rewrite <- List.app_assoc. split; [reflexivity | exact R].
Qed.

Lemma processMessage_raises (msg : Message) (cmd : CommandMessage) (h : history) :
  parseMessage JSON_parse (or_string (Body msg) []) = Some cmd ->
  isCommandAllowed (command cmd) = true ->
  log_raises env cmd = true ->
  exists e, processMessage JSON_parse cfg env msg h = (Throw e, h).
Proof.
  intros P A L. unfold processMessage. rewrite P, A. cbn [negb]. unfold bind.
  pose proof (log_executing_run cmd h) as R. rewrite L in R.
  destruct R as [e ->]. eauto.
Qed.

Lemma processMessage_allowed (msg : Message) (cmd : CommandMessage) (h : history) :
  parseMessage JSON_parse (or_string (Body msg) []) = Some cmd ->
  isCommandAllowed (command cmd) = true ->
  log_raises env cmd = false ->
  exists result t1 t2,
    executeCommand env cmd h = (Normal result, h ++ t1)
    /\ processMessage JSON_parse cfg env msg h
       = (Normal tt, h ++ (t1 ++ t2) ++ acknowledgment cfg (ReceiptHandle msg))
    /\ List.existsb is_delete t1 = false
    /\ match correlationId_of msg with
       | [] => t2 = []
       | _ :: _ => response_events (correlationId_of msg) result t2
       end.
Proof.
  intros P A L. unfold processMessage. rewrite P, A. cbn [negb]. unfold bind.
  pose proof (log_executing_run cmd h) as R. rewrite L in R. rewrite R.
  assert (X : exists result t1,
             executeCommand env cmd h = (Normal result, h ++ t1)
             /\ List.existsb is_delete t1 = false).
  { rewrite executeCommand_run. destruct (argv_of cmd) as [argv|].
    - eexists _, [_]. split; reflexivity.
    - eexists _, []. rewrite List.app_nil_r. split; reflexivity. }
  destruct X as (result & t1 & X & D). rewrite X.
  exists result, t1.
  destruct (correlationId_of msg) as [|c cid].
  - exists []. unfold ret. rewrite delete_message_run, List.app_nil_r.
    rewrite <- List.app_assoc. repeat split; auto.
  - destruct (sendResponse_run (c :: cid) result (h ++ t1)) as (t2 & E & R2).
    exists t2. rewrite E, delete_message_run.
    rewrite <- !List.app_assoc. repeat split; auto.
Qed.

Lemma response_events_sends (cid : jsstring) (result : ExecutionResult)
  (t : history) (url body c : jsstring) :
  response_events cid result t ->
  List.In (SendMessage url body c) t ->
  c = cid /\ body = JSON.stringify_object (response_object cid result).
Proof.
  intros [-> | [[name ->] | (name & u & ->)]] H; simpl in H.
  - contradiction.
  - destruct H as [H|[]]; discriminate.
  - destruct H as [H|[H|[]]]; [discriminate|].
    injection H as _ <- <-. auto.
Qed.

Lemma response_events_quiet (cid : jsstring) (result : ExecutionResult)
  (t : history) :
  response_events cid result t ->
  List.existsb is_spawn t = false /\ List.existsb is_delete t = false.
Proof.
  intros [-> | [[name ->] | (name & u & ->)]]; split; reflexivity.
Qed.

Lemma acknowledgment_quiet (receiptHandle : option jsstring) :
  List.existsb is_spawn (acknowledgment cfg receiptHandle) = false
  /\ forall url body c,
       ~ List.In (SendMessage url body c) (acknowledgment cfg receiptHandle).
Proof.
  destruct receiptHandle as [[|c r]|]; split; try reflexivity;
    intros url body c0 H; simpl in H; try contradiction.
  destruct H as [H|[]]; discriminate.
Qed.

(** What the consumer reads in a response of the worker. *)
Lemma read_response_object (cid : jsstring) (result : ExecutionResult) :
  read_response (JSON.stringify_object (response_object cid result))
  = Some {| r_success := success result;
            r_exitCode := exitCode result;
            r_stdout := output result;
            r_stderr := or_string (error result) [] |}.
Proof.
  unfold read_response. rewrite JSONFacts.parse_stringify_object.
  cbn. f_equal. f_equal.
  destruct (exitCode result <? 0)%Z eqn:E;
    [apply Z.ltb_lt in E | apply Z.ltb_ge in E]; lia.
Qed.

(** C7.  When the body does not parse, processing ends at once: nothing is
    sent and nothing is deleted, whatever the correlation id, and the
    history of calls to the queue service is what it was. *)
Theorem parse_failure_stops (msg : Message) (h : history) :
  parseMessage JSON_parse (or_string (Body msg) []) = None ->
  processMessage JSON_parse cfg env msg h = (Normal tt, h)
  /\ count_deletes (snd (processMessage JSON_parse cfg env msg h))
     = count_deletes h.
Proof.
  intros P. rewrite (processMessage_parse_failure msg h P). split; reflexivity.
Qed.

(** C1.  When the parsed command fails the allowlist check, processing
    returns without any call to [Bun.spawn].  When the message has a
    correlation id and there is a response queue, the queue is looked up,
    and when the lookup gives a URL the response is sent there, before the
    deletion; nothing else is called.  A response that is sent carries the
    correlation id of the message, which is then not empty, and decodes to
    [success: false], [exitCode: 1], an empty [stdout] and the [stderr]
    that names the command. *)
Theorem rejected_not_executed (msg : Message) (cmd : CommandMessage) (h : history) :
  parseMessage JSON_parse (or_string (Body msg) []) = Some cmd ->
  isCommandAllowed (command cmd) = false ->
  exists t,
    processMessage JSON_parse cfg env msg h = (Normal tt, h ++ t)
    /\ List.existsb is_spawn t = false
    /\ (forall url body cid,
          List.In (SendMessage url body cid) t ->
          cid = correlationId_of msg
          /\ cid <> []
          /\ body = JSON.stringify_object
                      (response_object cid (failure (rejection_text cmd)))
          /\ read_response body
             = Some {| r_success := false;
                       r_exitCode := 1;
                       r_stdout := [];
                       r_stderr := rejection_text cmd |})
    /\ (forall c cid n name,
          correlationId_of msg = c :: cid ->
          getResponseQueueName cfg = n :: name ->
          exists sent,
            t = GetQueueUrl (n :: name)
                :: sent ++ acknowledgment cfg (ReceiptHandle msg)
            /\ sent
               = match getQueueUrl_answer env h (n :: name) with
                 | Normal (Some (u :: rl)) =>
                     [SendMessage (u :: rl)
                        (JSON.stringify_object
                           (response_object (c :: cid)
                              (failure (rejection_text cmd))))
                        (c :: cid)]
                 | _ => []
                 end).
Proof.
  intros P A.
  destruct (processMessage_rejected msg cmd h P A) as (t & E & R).
  exists (t ++ acknowledgment cfg (ReceiptHandle msg)).
  destruct (acknowledgment_quiet (ReceiptHandle msg)) as [Aq As].
  split; [exact E|].
  assert (Pub : forall c cid n name,
            correlationId_of msg = c :: cid ->
            getResponseQueueName cfg = n :: name ->
            exists sent,
              t ++ acknowledgment cfg (ReceiptHandle msg)
              = GetQueueUrl (n :: name)
                :: sent ++ acknowledgment cfg (ReceiptHandle msg)
              /\ sent
                 = match getQueueUrl_answer env h (n :: name) with
                   | Normal (Some (u :: rl)) =>
                       [SendMessage (u :: rl)
                          (JSON.stringify_object
                             (response_object (c :: cid)
                                (failure (rejection_text cmd))))
                          (c :: cid)]
                   | _ => []
                   end).
  { intros c0 cid n name C N. eexists. split; [|reflexivity].
    pose proof (sendResponse_closed (c0 :: cid) (failure (rejection_text cmd)) h)
      as X.
    rewrite N in X. unfold failure in X.
    revert E. unfold processMessage. rewrite P, A, C. cbn [negb]. unfold bind.
    rewrite X, delete_message_run, <- List.app_assoc.
    intros E. injection E as E. apply List.app_inv_head in E.
    rewrite <- E. reflexivity. }
  destruct (correlationId_of msg) as [|c cid] eqn:C.
  - subst t. split; [exact Aq|]. split; [|exact Pub].
    intros url body c0 H. exfalso. exact (As _ _ _ H).
  - destruct (response_events_quiet _ _ _ R) as [Rq _].
    split; [rewrite List.existsb_app, Rq, Aq; reflexivity|].
    split; [|exact Pub].
    intros url body c0 H. apply List.in_app_or in H as [H|H];
      [|exfalso; exact (As _ _ _ H)].
    destruct (response_events_sends _ _ _ _ _ _ R H) as [-> ->].
    repeat split; [discriminate|].
    rewrite read_response_object. reflexivity.
Qed.

(** The acknowledgement where it works.  For a message with a receipt
    handle whose body parses, and whose arguments are an array of strings
    when the command is allowed, processing returns after exactly one
    deletion, of that receipt handle on the input queue, and the deletion is
    its last call: the execution and the publication of the response come
    before it. *)
Lemma acknowledged_once (msg : Message) (cmd : CommandMessage) (h : history)
  (c : char16) (handle : jsstring) :
  parseMessage JSON_parse (or_string (Body msg) []) = Some cmd ->
  ReceiptHandle msg = Some (c :: handle) ->
  (isCommandAllowed (command cmd) = true ->
   exists given, args cmd = Some (JArr (List.map JStr given))) ->
  exists t,
    processMessage JSON_parse cfg env msg h
    = (Normal tt, h ++ t ++ [DeleteMessage (QUEUE_URL cfg) (c :: handle)])
    /\ count_deletes t = 0
    /\ count_deletes (t ++ [DeleteMessage (QUEUE_URL cfg) (c :: handle)]) = 1.
Proof.
  intros P H T.
  assert (Q : forall t, List.existsb is_delete t = false ->
                count_deletes t = 0
                /\ count_deletes
                     (t ++ [DeleteMessage (QUEUE_URL cfg) (c :: handle)]) = 1).
  { intros t D. unfold count_deletes.
    assert (F : List.filter is_delete t = []).
    { induction t as [|e t IH]; [reflexivity|].
      cbn [List.existsb] in D. apply orb_false_iff in D as [De D].
      cbn [List.filter]. rewrite De. exact (IH D). }
    rewrite List.filter_app, F. split; reflexivity. }
  destruct (isCommandAllowed (command cmd)) eqn:A.
  - destruct (T eq_refl) as [given G].
    destruct (processMessage_allowed msg cmd h P A (log_raises_strings _ _ G))
      as (result & t1 & t2 & _ & E & D1 & R).
    rewrite H in E. exists (t1 ++ t2). split; [exact E|].
    apply Q. rewrite List.existsb_app, D1.
    destruct (correlationId_of msg); [subst t2; reflexivity|].
    exact (proj2 (response_events_quiet _ _ _ R)).
  - destruct (processMessage_rejected msg cmd h P A) as (t & E & R).
    rewrite H in E. exists t. split; [exact E|].
    apply Q. destruct (correlationId_of msg); [subst t; reflexivity|].
    exact (proj2 (response_events_quiet _ _ _ R)).
Qed.

(** C6.  [executeCommand] always returns a result and never throws.  It
    calls [Bun.spawn] once, in the working directory of the descriptor, with
    the first word of the command as program and with its arguments: the
    other words of the command when the descriptor has no truthy [args], the
    elements of [args] when that is an array, its characters when it is a
    string; [args] of another kind cannot be spread, and nothing is spawned.
    The result has [success] exactly when its exit code is zero; a run of
    the process to its end gives its output, its error output and its exit
    code; a failure to start or to read it, and the failure of the spread,
    give [success: false], [exitCode: 1], an empty output and the
    description of the failure. *)
Theorem executeCommand_result (cmd : CommandMessage) (h : history) :
  exists result t,
    executeCommand env cmd h = (Normal result, h ++ t)
    /\ (success result = true <-> exitCode result = 0%Z)
    /\ (forall argv,
          t = [Spawn argv (cwd cmd)] ->
          match spawn_answer env h argv (cwd cmd) with
          | Normal p =>
              result = {| success := (exited p =? 0)%Z;
                          output := stdout_text p;
                          error := match stderr_text p with
                                   | [] => None
                                   | e :: r => Some (e :: r)
                                   end;
                          exitCode := exited p |}
          | Throw e =>
              result = {| success := false;
                          output := [];
                          error := Some (describe e);
                          exitCode := 1 |}
          end)
    /\ (t = [] ->
        result = {| success := false;
                    output := [];
                    error := Some (typeError_message env NotIterable);
                    exitCode := 1 |})
    /\ (truthy (args cmd) = false ->
        t = [Spawn (JStr (List.hd [] (words (command cmd)))
                    :: List.map JStr (List.tl (words (command cmd))))
               (cwd cmd)])
    /\ (forall given,
          args cmd = Some (JArr given) ->
          t = [Spawn (JStr (List.hd [] (words (command cmd))) :: given)
                 (cwd cmd)])
    /\ (forall c s,
          args cmd = Some (JStr (c :: s)) ->
          t = [Spawn (JStr (List.hd [] (words (command cmd)))
                      :: List.map JStr (code_points (c :: s)))
                 (cwd cmd)])
    /\ (truthy (args cmd) = true ->
        (forall given, args cmd <> Some (JArr given)) ->
        (forall s, args cmd <> Some (JStr s)) ->
        t = []).
Proof.
  rewrite executeCommand_run.
  assert (V : argv_of cmd
              = if negb (truthy (args cmd))
                then Some (JStr (List.hd [] (words (command cmd)))
                           :: List.map JStr (List.tl (words (command cmd))))
                else match args cmd with
                     | Some (JArr given) =>
                         Some (JStr (List.hd [] (words (command cmd))) :: given)
                     | Some (JStr s) =>
                         Some (JStr (List.hd [] (words (command cmd)))
                               :: List.map JStr (code_points s))
                     | _ => None
                     end).
  { unfold argv_of, slice1; cbv zeta.
    rewrite hd_split_ws_trim, tl_split_ws_trim. reflexivity. }
  destruct (argv_of cmd) as [argv|].
  - eexists _, [Spawn argv (cwd cmd)]. split; [reflexivity|].
    split; [|split; [|split; [discriminate|]]].
    + destruct (spawn_answer env h argv (cwd cmd)) as [p|e]; cbn.
      * apply Z.eqb_eq.
      * split; discriminate.
    + intros argv' H. injection H as <-.
      destruct (spawn_answer env h argv (cwd cmd)); reflexivity.
    + split; [|split; [|split]].
      * intros T. rewrite T in V. cbn [negb] in V. congruence.
      * intros given G. rewrite G in V. cbn [truthy negb] in V. congruence.
      * intros c s G. rewrite G in V. cbn [truthy negb] in V. congruence.
      * intros T Na Ns. exfalso. rewrite T in V. cbn [negb] in V.
        destruct (args cmd) as [[ | | | s | given | ]|]; try discriminate V.
        -- exact (Ns s eq_refl).
        -- exact (Na given eq_refl).
  - eexists _, []. rewrite List.app_nil_r. split; [reflexivity|].
    split; [cbn; split; discriminate|].
    split; [discriminate|]. split; [reflexivity|].
    split; [|split; [|split]].
    + intros T. rewrite T in V. discriminate V.
    + intros given G. rewrite G in V. discriminate V.
    + intros c s G. rewrite G in V. discriminate V.
    + reflexivity.
Qed.

(** C10.  For a command that contains whitespace, [executeCommand] spawns
    the first word of the command (the empty string when the command has no
    word) and not the command itself; the other words are the arguments when
    the descriptor has no [args], and are dropped when it has an array. *)
Theorem executeCommand_retokenizes (cmd : CommandMessage) (h : history) :
  List.existsb is_ws (command cmd) = true ->
  let program := List.hd [] (words (command cmd)) in
  program <> command cmd
  /\ (args cmd = None ->
      snd (executeCommand env cmd h)
      = h ++ [Spawn (JStr program
                     :: List.map JStr (List.tl (words (command cmd))))
                (cwd cmd)])
  /\ (forall given,
        args cmd = Some (JArr given) ->
        snd (executeCommand env cmd h)
        = h ++ [Spawn (JStr program :: given) (cwd cmd)]).
Proof.
  intros W program. split; [|split].
  - intros E. pose proof (words_spec (command cmd)) as F.
    subst program. destruct (words (command cmd)) as [|w ws].
    + cbn in E. rewrite <- E in W. discriminate.
    + cbn in E. subst w. inversion F as [|? ? [_ [_ X]] _]. congruence.
  - intros N. rewrite executeCommand_run. unfold argv_of; cbv zeta.
    rewrite N. cbn [truthy negb snd].
    rewrite hd_split_ws_trim. unfold slice1. rewrite tl_split_ws_trim.
    reflexivity.
  - intros given G. rewrite executeCommand_run. unfold argv_of; cbv zeta.
    rewrite G. cbn [truthy negb snd]. rewrite hd_split_ws_trim. reflexivity.
Qed.

End LifecycleProperties.

(** ** The properties at work on the sample deployment *)

Lemma parse_failure_stops_witness :
  processMessage JSON.parse Sample.cfg Sample.env
    (Sample.message (lit "{}")) []
  = (Normal tt, []).
Proof.
  apply (parse_failure_stops JSON.parse Sample.cfg Sample.env
           (Sample.message (lit "{}")) []).
  reflexivity.
Defined.

Lemma rejected_not_executed_witness :
  exists t body,
    processMessage JSON.parse Sample.cfg Sample.env
      (Sample.message Sample.body_rm) []
    = (Normal tt, t)
    /\ List.existsb is_spawn t = false
    /\ t = [GetQueueUrl (lit "i-0abc-responses");
            SendMessage
              (lit "https://sqs.us-east-1.amazonaws.com/123456789012/i-0abc-responses")
              body (lit "request-1");
            DeleteMessage (QUEUE_URL Sample.cfg) (lit "receipt-1")]
    /\ read_response body
       = Some {| r_success := false;
                 r_exitCode := 1;
                 r_stdout := [];
                 r_stderr := lit "Command " ++ dquote :: lit "rm"
                             ++ dquote :: lit " is not in the allowlist" |}.
Proof.
  destruct (rejected_not_executed JSON.parse Sample.cfg Sample.env
              (Sample.message Sample.body_rm)
              {| command := lit "rm";
                 args := Some (JArr [JStr (lit "-rf"); JStr (lit "/")]);
                 cwd := None |}
              [] eq_refl eq_refl) as (t & E & S & R & Pub).
  destruct (Pub 114%N (lit "equest-1") 105%N (lit "-0abc-responses")
              eq_refl eq_refl) as (sent & Et & Es).
  cbn in Es. subst sent.
  eexists t, _. split; [exact E|]. split; [exact S|].
  split; [exact Et|].
  refine (proj2 (proj2 (proj2 (R _ _ _ _)))).
  rewrite Et. right. left. reflexivity.
Defined.

Lemma acknowledged_once_witness :
  exists t,
    processMessage JSON.parse Sample.cfg Sample.env
      (Sample.message (Sample.quoted "echo hello")) []
    = (Normal tt, t ++ [DeleteMessage (QUEUE_URL Sample.cfg) (lit "receipt-1")])
    /\ count_deletes t = 0.
Proof.
  destruct (acknowledged_once JSON.parse Sample.cfg Sample.env
              (Sample.message (Sample.quoted "echo hello"))
              {| command := lit "echo";
                 args := Some (JArr [JStr (lit "hello")]);
                 cwd := None |}
              [] 114%N (lit "eceipt-1") eq_refl eq_refl
              (fun _ => ex_intro _ [lit "hello"] eq_refl))
    as (t & E & D & _).
  exists t. split; assumption.
Defined.

(** C3.  The message [{"command":"ls","args":5}], received with a
    receipt handle, is not acknowledged: it parses, its command is on the
    allowlist, and writing the line [Executing: ...] throws, since a number
    has no [join]; [processMessage] throws before anything is executed,
    answered or deleted, whatever the configuration, the outside world and
    the calls made before. *)
Theorem unacknowledged_message (cfg : config) (env : environment) (h : history) :
  parseMessage JSON.parse Sample.body_ls_5
  = Some {| command := lit "ls"; args := Some (JNum false 5 0); cwd := None |}
  /\ isCommandAllowed (lit "ls") = true
  /\ ReceiptHandle (Sample.message Sample.body_ls_5) = Some (lit "receipt-1")
  /\ processMessage JSON.parse cfg env (Sample.message Sample.body_ls_5) h
     = (Throw (ErrorObject (typeError_message env NotAFunction)), h)
  /\ count_deletes
       (snd (processMessage JSON.parse cfg env
               (Sample.message Sample.body_ls_5) h))
     = count_deletes h.
Proof.
  split; [reflexivity|]. split; [reflexivity|]. split; [reflexivity|].
  assert (E : processMessage JSON.parse cfg env
                (Sample.message Sample.body_ls_5) h
              = (Throw (ErrorObject (typeError_message env NotAFunction)), h)).
  { unfold processMessage.
    change (parseMessage JSON.parse
              (or_string (Body (Sample.message Sample.body_ls_5)) []))
      with (Some {| command := lit "ls";
                    args := Some (JNum false 5 0);
                    cwd := None |}).
    change (isCommandAllowed
              (command {| command := lit "ls";
                          args := Some (JNum false 5 0);
                          cwd := None |}))
      with true.
    reflexivity. }
  rewrite E. split; reflexivity.
Qed.

(** Arrays nested deeper than the stack allows cannot be written to the
    log either. *)
Lemma nested_array_raises (env : environment) (depth n : nat) :
  depth < n ->
  toString_raises env depth (nested_array n)
  = Some (ErrorObject (rangeError_message env)).
Proof.
  revert n. induction depth as [|d IH]; intros n H.
  - destruct n; reflexivity.
  - destruct n as [|n]; [lia|]. cbn [nested_array toString_raises first_raised].
    rewrite (IH n) by lia. reflexivity.
Qed.

Lemma deep_args_raise (env : environment) (c : jsstring) (d : option jsvalue)
  (n : nat) :
  join_depth env < n ->
  log_raises env {| command := c; args := Some (JArr [nested_array n]); cwd := d |}
  = true.
Proof.
  intros H. unfold log_raises. cbn [args truthy andb first_raised].
  rewrite (nested_array_raises env _ n H). reflexivity.
Qed.

Lemma executeCommand_retokenizes_witness :
  parseMessage JSON.parse Sample.body_rm_ls = Some Sample.cmd_rm_ls
  /\ isCommandAllowed (command Sample.cmd_rm_ls) = true
  /\ isCommandAllowed (lit "rm") = false
  /\ snd (executeCommand Sample.env Sample.cmd_rm_ls [])
     = [Spawn [JStr (lit "rm"); JStr (lit "-rf"); JStr (lit "/")] None].
Proof.
  split; [reflexivity|]. split; [reflexivity|]. split; [reflexivity|].
  exact (proj2 (proj2 (executeCommand_retokenizes Sample.env Sample.cmd_rm_ls
                         [] eq_refl))
           [JStr (lit "-rf"); JStr (lit "/")] eq_refl).
Defined.

(** The whole path of such a message: the gate sees [ls], the process
    started is [rm]. *)
Lemma processMessage_spawns_other_program :
  processMessage JSON.parse Sample.cfg Sample.env
    (Sample.message Sample.body_rm_ls) []
  = (Normal tt,
     [Spawn [JStr (lit "rm"); JStr (lit "-rf"); JStr (lit "/")] None;
      GetQueueUrl (lit "i-0abc-responses");
      SendMessage
        (lit "https://sqs.us-east-1.amazonaws.com/123456789012/i-0abc-responses")
        (JSON.stringify_object
           (response_object (lit "request-1") Sample.echo_result))
        (lit "request-1");
      DeleteMessage (QUEUE_URL Sample.cfg) (lit "receipt-1")]).
Proof. vm_compute; reflexivity. Qed.

(** C9 (as amended).  The consumer reads in a response the [success], the
    [exitCode] and the [stdout] of the result, and its [stderr] when it has
    one; a result without [stderr] is read with the empty string. *)
Theorem response_round_trip (correlationId : jsstring) (result : ExecutionResult) :
  exists r,
    read_response
      (JSON.stringify_object (response_object correlationId result)) = Some r
    /\ r_success r = success result
    /\ r_exitCode r = exitCode result
    /\ r_stdout r = output result
    /\ r_stderr r = match error result with
                    | Some text => text
                    | None => []
                    end.
Proof.
  eexists. split; [apply read_response_object|].
  repeat split. cbn. destruct (error result) as [[|c t]|]; reflexivity.
Qed.

(** C9 as stated fails on a result without [stderr], such as the one of a
    process that wrote nothing to its error stream: the consumer reads a
    string where the result has none. *)
Lemma response_round_trip_counterexample :
  error Sample.echo_result = None
  /\ exists r,
       read_response
         (JSON.stringify_object
            (response_object (lit "request-1") Sample.echo_result)) = Some r
       /\ Some (r_stderr r) <> error Sample.echo_result.
Proof.
  split; [reflexivity|].
  eexists. split; [vm_compute; reflexivity | discriminate].
Qed.

(** ** The worker of [src/index.ts] *)

(** Its gate compares the whole last segment, arguments included. *)
Lemma index_ts_gate_unfold (c : jsstring) :
  IndexTs.isCommandAllowed c
  = IndexTs.ALLOWLIST_has (Some (or_string (Some (last_segment c)) c)).
Proof.
  unfold IndexTs.isCommandAllowed; cbv zeta.
  rewrite (nth_error_last jsstring _ [] (split_char_nonempty slash c)),
    last_split_char.
  reflexivity.
Qed.

Lemma index_ts_gate_prefix (p c : jsstring) :
  last_segment c <> [] ->
  IndexTs.isCommandAllowed (p ++ slash :: c) = IndexTs.isCommandAllowed c.
Proof.
  intros H. rewrite !index_ts_gate_unfold, last_segment_prefix.
  destruct (last_segment c); [congruence | reflexivity].
Qed.

Lemma index_ts_gate_examples :
  IndexTs.isCommandAllowed (lit "/usr/bin/git") = true
  /\ IndexTs.isCommandAllowed (lit "ls -la") = false
  /\ IndexTs.isCommandAllowed (lit "npm") = false.
Proof. repeat split. Qed.

(** Its parser reads a JSON string as the other does. *)
Lemma index_ts_parses_json_string
  (JSON_parse : jsstring -> option jsvalue)
  (body s cmd : jsstring) (rest : list jsstring) :
  JSON_parse body = Some (JStr s) ->
  words s = cmd :: rest ->
  IndexTs.parseMessage JSON_parse body = Some (command_of_tokens cmd rest).
Proof.
  intros P W. unfold IndexTs.parseMessage. rewrite P.
  rewrite command_of_parts_words, W. reflexivity.
Qed.

Lemma index_ts_parses_empty_string :
  IndexTs.parseMessage JSON.parse (Sample.quoted "")
  = Some {| command := []; args := Some (JArr []); cwd := None |}.
Proof. reflexivity. Qed.

(** Its executor never throws either, and reports success exactly on the
    exit code zero. *)
Lemma index_ts_executor_never_throws (env : environment) (cmd : CommandMessage)
  (h : history) :
  exists result t,
    IndexTs.executeCommand env cmd h = (Normal result, h ++ t)
    /\ (forall argv,
          t = [Spawn argv (cwd cmd)] ->
          match spawn_answer env h argv (cwd cmd) with
          | Normal p => IndexTs.success result = (exited p =? 0)%Z
          | Throw e =>
              result = {| IndexTs.success := false;
                          IndexTs.output := [];
                          IndexTs.error := Some (describe e) |}
          end).
Proof.
  unfold IndexTs.executeCommand, try_catch, bind.
  set (a := match args cmd with
            | Some a => if truthy (args cmd) then a else JArr []
            | None => JArr []
            end).
  assert (S : (exists rest, spread env a h = (Normal rest, h))
              \/ exists e, spread env a h = (Throw e, h)).
  { unfold spread. destruct a; unfold ret, raise; eauto. }
  destruct S as [[rest ->] | [e ->]].
  - unfold call, ret.
    destruct (spawn_answer env h (JStr (command cmd) :: rest) (cwd cmd))
      as [p|e] eqn:A;
      (eexists _, [_]; split; [reflexivity|]);
      intros argv H; injection H as <-; rewrite A; reflexivity.
  - unfold ret. eexists _, []. rewrite List.app_nil_r.
    split; [reflexivity | discriminate].
Qed.

(** * Further properties of the code *)

(** ** Gate and parser *)

Lemma words_token (t : jsstring) : is_token t -> words t = [t].
Proof.
  intros T. rewrite <- (List.app_nil_r t) at 1.
  apply (words_token_app t [] T). right; reflexivity.
Qed.

Lemma ALLOWLIST_tokens : List.Forall is_token ALLOWLIST.
Proof. repeat constructor; discriminate. Qed.

Lemma index_ts_ALLOWLIST_incl (t : jsstring) :
  List.In t IndexTs.ALLOWLIST -> List.In t ALLOWLIST.
Proof.
  intros H. simpl in H.
  repeat (destruct H as [<- | H]; [simpl; tauto|]). contradiction.
Qed.

(** X1.  A command that ends in ['/'] has an empty last segment, and the
    gate then judges the first word of the whole command. *)
Theorem gate_reads_whole_command (p : jsstring) :
  isCommandAllowed (p ++ [slash]) = ALLOWLIST_has (first_token (p ++ [slash])).
Proof.
  apply isCommandAllowed_trailing_slash.
  apply (last_segment_prefix p []).
Qed.

Lemma ALLOWLIST_no_slash (t : jsstring) :
  List.In t ALLOWLIST -> List.existsb (N.eqb slash) t = false /\ t <> [].
Proof.
  intros H. simpl in H.
  repeat (destruct H as [<- | H]; [split; [reflexivity | discriminate]|]).
  contradiction.
Qed.

Lemma index_ts_gate_member (c : jsstring) :
  IndexTs.isCommandAllowed c = true ->
  List.In (last_segment c) IndexTs.ALLOWLIST.
Proof.
  rewrite index_ts_gate_unfold. unfold IndexTs.ALLOWLIST_has.
  intros H. apply List.existsb_exists in H as (t & I & E).
  apply jsstring_eqb_eq in E. subst t.
  destruct (last_segment c) as [|x r] eqn:L; [|exact I].
  cbn [or_string] in I. exfalso.
  destruct (ALLOWLIST_no_slash c (index_ts_ALLOWLIST_incl c I)) as [S N].
  rewrite (last_segment_without c S) in L. contradiction.
Qed.

(** A command whose last segment is on the allowlist passes the gate. *)
Lemma isCommandAllowed_member (c : jsstring) :
  List.In (last_segment c) ALLOWLIST -> isCommandAllowed c = true.
Proof.
  intros I. rewrite isCommandAllowed_unfold.
  pose proof ALLOWLIST_tokens as F. rewrite List.Forall_forall in F.
  pose proof (F _ I) as T.
  destruct (last_segment c) as [|x r] eqn:L; [destruct T; congruence|].
  cbn [or_string]. unfold first_token. rewrite (words_token _ T).
  apply ALLOWLIST_has_In. exists (x :: r). auto.
Qed.

(** X2.  What the gate of [src/index.ts] allows, the gate with the word
    splitting and the longer list allows too. *)
Theorem gate_extends_index_ts (c : jsstring) :
  IndexTs.isCommandAllowed c = true -> isCommandAllowed c = true.
Proof.
  intros A. apply isCommandAllowed_member, index_ts_ALLOWLIST_incl.
  exact (index_ts_gate_member c A).
Qed.

Lemma gate_extends_index_ts_witness :
  IndexTs.isCommandAllowed (lit "/usr/bin/git") = true
  /\ isCommandAllowed (lit "/usr/bin/git") = true.
Proof.
  split; [reflexivity|].
  apply (gate_extends_index_ts (lit "/usr/bin/git")). reflexivity.
Defined.

(** X3.  A body that the parser of [src/index.ts] accepts is accepted by the
    parser with the plain-text fallback, with the same descriptor. *)
Theorem parser_extends_index_ts
  (JSON_parse : jsstring -> option jsvalue) (body : jsstring)
  (cmd : CommandMessage) :
  IndexTs.parseMessage JSON_parse body = Some cmd ->
  parseMessage JSON_parse body = Some cmd.
Proof.
  unfold IndexTs.parseMessage, parseMessage.
  destruct (JSON_parse body) as [parsed|]; [|discriminate].
  destruct parsed; try (intros H; exact H); cbn [get_property].
  discriminate.
Qed.

Lemma parser_extends_index_ts_witness :
  parseMessage JSON.parse Sample.body_rm_ls = Some Sample.cmd_rm_ls.
Proof.
  apply (parser_extends_index_ts JSON.parse Sample.body_rm_ls Sample.cmd_rm_ls).
  reflexivity.
Defined.

(** X4.  The parse failures, all of them: a body that is no JSON, or the
    JSON [null], fails when it has no word; a JSON string never fails; an
    object fails when its [command] is not a string with a character; any
    other JSON value fails. *)
Theorem parseMessage_fails_iff
  (JSON_parse : jsstring -> option jsvalue) (body : jsstring) :
  parseMessage JSON_parse body = None <->
  match JSON_parse body with
  | None | Some JNull => words body = []
  | Some (JStr _) => False
  | Some (JObj members) =>
      forall c r, own_property (lit "command") members <> Some (JStr (c :: r))
  | Some _ => True
  end.
Proof.
  assert (F : parseMessage_fallback body = None <-> words body = []).
  { unfold parseMessage_fallback. rewrite <- trim_nil_words.
    destruct (trim body); [tauto|].
    destruct (match_command body); split; discriminate. }
  unfold parseMessage.
  destruct (JSON_parse body) as [[ | b | neg m e | s | l | members]|];
    cbn [get_property]; try exact F; try tauto.
  - split; [discriminate | contradiction].
  - destruct (own_property (lit "command") members)
      as [[ | | | [|c r] | | ]|]; split; try discriminate; try reflexivity.
    intros H. exfalso. exact (H c r eq_refl).
Qed.

(** X5.  A structured message keeps its [command] as it is written,
    whitespace and slashes included; its [args] when they are truthy, the
    empty array otherwise; and its [cwd], whatever it is. *)
Theorem parseMessage_structured
  (JSON_parse : jsstring -> option jsvalue) (body : jsstring)
  (members : list (jsstring * jsvalue)) (c : char16) (r : jsstring) :
  JSON_parse body = Some (JObj members) ->
  own_property (lit "command") members = Some (JStr (c :: r)) ->
  exists cmd,
    parseMessage JSON_parse body = Some cmd
    /\ command cmd = c :: r
    /\ cwd cmd = own_property (lit "cwd") members
    /\ (truthy (own_property (lit "args") members) = true ->
        args cmd = own_property (lit "args") members)
    /\ (truthy (own_property (lit "args") members) = false ->
        args cmd = Some (JArr [])).
Proof.
  intros P C. unfold parseMessage. rewrite P. cbn [get_property]. rewrite C.
  eexists. split; [reflexivity|]. cbn [command cwd args].
  destruct (truthy (own_property (lit "args") members));
    repeat split; congruence.
Qed.

Lemma parseMessage_structured_witness :
  exists cmd,
    parseMessage JSON.parse Sample.body_rm_ls = Some cmd
    /\ command cmd = lit "rm x/ls".
Proof.
  destruct (parseMessage_structured JSON.parse Sample.body_rm_ls
              [(lit "command", JStr (lit "rm x/ls"));
               (lit "args", JArr [JStr (lit "-rf"); JStr (lit "/")])]
              114%N (lit "m x/ls") eq_refl eq_refl) as (cmd & P & C & _).
  exists cmd. split; assumption.
Defined.

(** A body that is no JSON object gives a descriptor made of the words of
    some text. *)
Lemma parseMessage_plain_words
  (JSON_parse : jsstring -> option jsvalue) (body : jsstring)
  (cmd : CommandMessage) :
  parseMessage JSON_parse body = Some cmd ->
  (forall members, JSON_parse body <> Some (JObj members)) ->
  exists s, cmd = command_of_tokens (List.hd [] (words s)) (List.tl (words s)).
Proof.
  intros P N.
  assert (W : forall s,
             Some (command_of_parts (split_ws (trim s))) = Some cmd ->
             exists s', cmd = command_of_tokens (List.hd [] (words s'))
                                (List.tl (words s'))).
  { intros s H. injection H as <-. exists s. apply command_of_parts_words. }
  assert (Fb : parseMessage_fallback body = Some cmd ->
               exists s', cmd = command_of_tokens (List.hd [] (words s'))
                                  (List.tl (words s'))).
  { unfold parseMessage_fallback. destruct (trim body) eqn:T; [discriminate|].
    rewrite <- T. destruct (match_command body) as [capture|] eqn:M.
    - apply match_command_Some in M. destruct M as (_ & _ & _ & _ & X & _).
      cbv zeta. rewrite (drop_final_rbracket_capture _ X). apply W.
    - apply W. }
  unfold parseMessage in P.
  destruct (JSON_parse body) as [[ | b | neg m e | s | l | members]|];
    cbn [get_property] in P; try discriminate P; try exact (Fb P).
  - exact (W s P).
  - exfalso. exact (N members eq_refl).
Qed.

Lemma words_tokens (s : jsstring) : List.Forall is_token (words s).
Proof.
  apply (List.Forall_impl _ (P := fun w => w <> [] /\ List.forallb is_ws w = false
                                /\ List.existsb is_ws w = false));
    [|exact (words_spec s)].
  intros w (A & _ & B). split; assumption.
Qed.

Lemma tl_words_tokens (s : jsstring) : List.Forall is_token (List.tl (words s)).
Proof.
  pose proof (words_tokens s) as T.
  destruct (words s); [constructor | inversion T; assumption].
Qed.

(** X6.  Every descriptor that comes out of the parser has truthy
    arguments; and unless the body is a JSON object, they are an array of
    words and there is no working directory. *)
Theorem parsed_args_present
  (JSON_parse : jsstring -> option jsvalue) (body : jsstring)
  (cmd : CommandMessage) :
  parseMessage JSON_parse body = Some cmd ->
  truthy (args cmd) = true
  /\ ((forall members, JSON_parse body <> Some (JObj members)) ->
      exists tokens,
        args cmd = Some (JArr (List.map JStr tokens))
        /\ List.Forall is_token tokens
        /\ cwd cmd = None).
Proof.
  intros P. split; [exact (parseMessage_args_truthy JSON_parse body cmd P)|].
  intros N. destruct (parseMessage_plain_words JSON_parse body cmd P N) as [s ->].
  exists (List.tl (words s)). repeat split. apply tl_words_tokens.
Qed.

Lemma parsed_args_present_witness :
  truthy (args Sample.cmd_rm_ls) = true.
Proof.
  apply (parsed_args_present JSON.parse Sample.body_rm_ls Sample.cmd_rm_ls).
  reflexivity.
Defined.

(** ** Response publisher *)

Lemma forallb_no_slash (s : jsstring) :
  List.forallb (fun d => negb (N.eqb d slash)) s
  = negb (List.existsb (N.eqb slash) s).
Proof.
  induction s as [|c s IH]; [reflexivity|].
  cbn [List.forallb List.existsb]. rewrite IH, negb_orb, (N.eqb_sym slash c).
  reflexivity.
Qed.

(** The match of the pattern is the last slash with what follows it, when
    something follows it. *)
Lemma match_last_segment_spec (url : jsstring) :
  match_last_segment url =
  if List.existsb (N.eqb slash) url
  then match last_segment url with
       | [] => None
       | x :: r => Some (slash :: x :: r)
       end
  else None.
Proof.
  induction url as [|c url IH]; [reflexivity|].
  cbn [match_last_segment last_segment List.existsb].
  rewrite forallb_no_slash, (N.eqb_sym slash c).
  destruct (List.existsb (N.eqb slash) url) eqn:S.
  - rewrite !andb_false_r, orb_true_r. exact IH.
  - rewrite IH, orb_false_r. cbn [negb]. rewrite andb_true_r.
    destruct (N.eqb c slash) eqn:C; [|reflexivity].
    apply N.eqb_eq in C. subst c.
    destruct url; reflexivity.
Qed.

Lemma last_segment_nil (url : jsstring) :
  last_segment url = [] -> url = [] \/ exists p, url = p ++ [slash].
Proof.
  induction url as [|x url IH]; [auto|].
  cbn [last_segment]. destruct (List.existsb (N.eqb slash) url) eqn:S.
  - intros L. destruct (IH L) as [-> | [p ->]]; [discriminate|].
    right. exists (x :: p). reflexivity.
  - destruct (N.eqb x slash) eqn:X; [|discriminate].
    apply N.eqb_eq in X. intros ->. subst x. right. exists []. reflexivity.
Qed.

(** X7.  Without an explicit name, the response queue is named after the
    last segment of the URL of the command queue: [.../<id>] gives
    [<id>-responses]. *)
Theorem response_queue_name_derived (cfg : config) (prefix id : jsstring) :
  RESPONSE_QUEUE_NAME cfg = [] ->
  QUEUE_URL cfg = prefix ++ slash :: id ->
  id <> [] ->
  List.existsb (N.eqb slash) id = false ->
  getResponseQueueName cfg = id ++ lit "-responses".
Proof.
  intros R U N S. unfold getResponseQueueName.
  rewrite R, U, match_last_segment_spec, last_segment_prefix,
    (last_segment_without id S), List.existsb_app.
  cbn [List.existsb]. rewrite N.eqb_refl, orb_true_r.
  destruct id; [congruence | reflexivity].
Qed.

Lemma response_queue_name_derived_witness :
  getResponseQueueName Sample.cfg = lit "i-0abc-responses".
Proof.
  apply (response_queue_name_derived Sample.cfg
           (lit "https://sqs.us-east-1.amazonaws.com/123456789012")
           (lit "i-0abc"));
    [reflexivity | reflexivity | discriminate | reflexivity].
Defined.

(** X8.  The worker has no response queue exactly when no name is
    configured and the URL of the command queue has no ['/'] or ends in
    one. *)
Theorem response_queue_absent_iff (cfg : config) :
  getResponseQueueName cfg = [] <->
  RESPONSE_QUEUE_NAME cfg = []
  /\ (List.existsb (N.eqb slash) (QUEUE_URL cfg) = false
      \/ exists p, QUEUE_URL cfg = p ++ [slash]).
Proof.
  unfold getResponseQueueName. rewrite match_last_segment_spec.
  destruct (RESPONSE_QUEUE_NAME cfg) as [|n name].
  - destruct (List.existsb (N.eqb slash) (QUEUE_URL cfg)) eqn:S.
    + destruct (last_segment (QUEUE_URL cfg)) as [|x r] eqn:L.
      * split; [|reflexivity]. intros _. split; [reflexivity|]. right.
        destruct (last_segment_nil _ L) as [E | H]; [|exact H].
        rewrite E in S. discriminate.
      * split; [discriminate|]. intros [_ [H | [p H]]]; [discriminate|].
        rewrite H, (last_segment_prefix p []) in L. discriminate.
    + split; auto.
  - split; [discriminate | intros [H _]; discriminate].
Qed.

Section PublisherProperties.

Variable cfg : config.
Variable env : environment.

(** X9.  [sendResponse] never throws, whatever the queue service answers.
    It makes no other call than the lookup of the response queue and the
    send; it sends exactly when there is a response queue and the lookup
    gives a URL that is not empty, and then to that URL, with the
    correlation id as attribute, after the lookup. *)
Theorem sendResponse_never_throws
  (cid : jsstring) (result : ExecutionResult) (h : history) :
  exists t,
    sendResponse cfg env cid result h = (Normal tt, h ++ t)
    /\ List.forallb (fun e => is_lookup e || is_send e) t = true
    /\ (List.existsb is_send t = true <->
        getResponseQueueName cfg <> []
        /\ exists u rl,
             getQueueUrl_answer env h (getResponseQueueName cfg)
             = Normal (Some (u :: rl)))
    /\ (forall url body c,
          List.In (SendMessage url body c) t ->
          getQueueUrl_answer env h (getResponseQueueName cfg) = Normal (Some url)
          /\ c = cid
          /\ t = [GetQueueUrl (getResponseQueueName cfg); SendMessage url body c]).
Proof.
  unfold sendResponse.
  destruct (getResponseQueueName cfg) as [|n0 name].
  - exists []. rewrite List.app_nil_r. split; [reflexivity|].
    split; [reflexivity|]. split.
    + split; [discriminate | intros [H _]; congruence].
    + intros url body c [].
  - unfold try_catch, bind, call, ret.
    destruct (getQueueUrl_answer env h (n0 :: name)) as [[[|u rl]|]|e].
    1, 3, 4:
      (exists [GetQueueUrl (n0 :: name)]; split; [reflexivity|];
       split; [reflexivity|]; split;
       [split; [discriminate | intros [_ (u & rl & H)]; discriminate]
       | intros url body c [H|[]]; discriminate]).
    assert (E : exists t,
               t = [GetQueueUrl (n0 :: name);
                    SendMessage (u :: rl)
                      (JSON.stringify_object (response_object cid result)) cid]
               /\ match sendMessage_answer env (h ++ [GetQueueUrl (n0 :: name)])
                          (u :: rl)
                          (JSON.stringify_object (response_object cid result)) cid
                  with
                  | Normal a =>
                      (Normal a,
                       (h ++ [GetQueueUrl (n0 :: name)])
                       ++ [SendMessage (u :: rl)
                             (JSON.stringify_object (response_object cid result))
                             cid])
                  | Throw _ =>
                      (Normal tt,
                       (h ++ [GetQueueUrl (n0 :: name)])
                       ++ [SendMessage (u :: rl)
                             (JSON.stringify_object (response_object cid result))
                             cid])
                  end = (Normal tt, h ++ t)).
    { eexists. split; [reflexivity|].
      destruct (sendMessage_answer env _ _ _ _) as [[]|e];
        rewrite <- List.app_assoc; reflexivity. }
    destruct E as (t & -> & E). eexists. split; [exact E|].
    split; [reflexivity|]. split.
    + split; [intros _; split; [discriminate | eauto] | reflexivity].
    + intros url body c [H|[H|[]]]; [discriminate|].
      injection H as <- <- <-. repeat split.
Qed.

(** X10.  The body of a response, parsed as JSON, is an object whose
    [correlationId] is the value of the [CorrelationId] attribute it is sent
    with. *)
Theorem response_body_names_request
  (cid : jsstring) (result : ExecutionResult) (h : history) :
  exists t,
    snd (sendResponse cfg env cid result h) = h ++ t
    /\ forall url body c,
         List.In (SendMessage url body c) t ->
         exists members,
           JSON.parse body = Some (JObj members)
           /\ own_property (lit "correlationId") members = Some (JStr c).
Proof.
  destruct (sendResponse_run cfg env cid result h) as (t & E & R).
  exists t. rewrite E. split; [reflexivity|].
  intros url body c H.
  destruct (response_events_sends cid result t url body c R H) as [-> ->].
  rewrite JSONFacts.parse_stringify_object. eexists. split; reflexivity.
Qed.

End PublisherProperties.

(** ** Process executor *)

Lemma hd_words_idem (s : jsstring) :
  List.hd [] (words (List.hd [] (words s))) = List.hd [] (words s).
Proof.
  pose proof (words_tokens s) as T.
  destruct (words s) as [|w ws]; [reflexivity|].
  inversion T as [|? ? Tw _]. cbn [List.hd]. rewrite (words_token w Tw).
  reflexivity.
Qed.

Lemma hd_words_no_ws (c : jsstring) :
  List.existsb is_ws c = false -> List.hd [] (words c) = c.
Proof.
  intros W. destruct c as [|x c]; [reflexivity|].
  rewrite (words_token (x :: c)); [reflexivity|].
  split; [discriminate | exact W].
Qed.

Lemma last_segment_suffix (c : jsstring) : exists p, c = p ++ last_segment c.
Proof.
  induction c as [|x c [p IH]]; [exists []; reflexivity|].
  cbn [last_segment]. destruct (List.existsb (N.eqb slash) c).
  - exists (x :: p). cbn [app]. congruence.
  - destruct (N.eqb x slash); [exists [x] | exists []]; reflexivity.
Qed.

(** For a command without whitespace the gate is membership of its last
    segment. *)
Lemma isCommandAllowed_no_ws (c : jsstring) :
  List.existsb is_ws c = false ->
  isCommandAllowed c = true -> List.In (last_segment c) ALLOWLIST.
Proof.
  intros W A. rewrite isCommandAllowed_unfold in A.
  apply ALLOWLIST_has_In in A as (t & F & I).
  unfold first_token in F.
  destruct (last_segment c) as [|x r] eqn:L; cbn [or_string] in F.
  - assert (E : t = c).
    { pose proof (hd_words_no_ws c W) as Hc.
      destruct (words c) as [|w ws]; [discriminate|].
      cbn in F, Hc. congruence. }
    subst t. destruct (ALLOWLIST_no_slash c I) as [S N].
    rewrite (last_segment_without c S) in L. contradiction.
  - destruct (last_segment_suffix c) as [p E]. rewrite L in E.
    assert (Wl : List.existsb is_ws (x :: r) = false).
    { rewrite E, List.existsb_app in W. apply orb_false_iff in W. tauto. }
    rewrite (words_token (x :: r)) in F by (split; [discriminate | exact Wl]).
    injection F as <-. exact I.
Qed.

Section ExecutorProperties.

Variable env : environment.

Lemma executeCommand_trace (cmd : CommandMessage) (h : history) :
  exists result,
    executeCommand env cmd h = (Normal result, h ++ spawn_events cmd).
Proof.
  rewrite executeCommand_run. unfold spawn_events.
  destruct (argv_of cmd); rewrite ?List.app_nil_r; eauto.
Qed.

(** X11.  [executeCommand] calls neither the queue service nor [Bun.spawn]
    twice: it adds one spawn to the history, in the working directory of the
    descriptor, or nothing; and nothing exactly when the arguments are
    truthy and are neither an array nor a string. *)
Theorem executeCommand_effects (cmd : CommandMessage) (h : history) :
  exists result t,
    executeCommand env cmd h = (Normal result, h ++ t)
    /\ (t = [] \/ exists argv, t = [Spawn argv (cwd cmd)])
    /\ (t = [] <->
        truthy (args cmd) = true
        /\ (forall l, args cmd <> Some (JArr l))
        /\ (forall s, args cmd <> Some (JStr s))).
Proof.
  destruct (executeCommand_trace cmd h) as [result E].
  exists result, (spawn_events cmd). split; [exact E|].
  unfold spawn_events, argv_of; cbv zeta.
  destruct (truthy (args cmd)) eqn:T; cbn [negb].
  - destruct (args cmd) as [[ | b | neg m e | s | l | ms]|];
      try discriminate T;
      (split;
       [first [left; reflexivity | right; eexists; reflexivity]
       | split;
         [first [discriminate
                | intros _; repeat split; discriminate]
         | first [reflexivity
                | intros (_ & Hl & Hs);
                  first [destruct (Hl _ eq_refl) | destruct (Hs _ eq_refl)]]]]).
  - split; [right; eexists; reflexivity|].
    split; [discriminate | intros (H & _); discriminate].
Qed.

End ExecutorProperties.

(** ** Message lifecycle *)

Section PipelineProperties.

Variable JSON_parse : jsstring -> option jsvalue.
Variable cfg : config.
Variable env : environment.

Lemma sendResponse_trace (cid : jsstring) (result : ExecutionResult) (h : history) :
  exists t,
    sendResponse cfg env cid result h = (Normal tt, h ++ t)
    /\ publication cfg cid result t.
Proof.
  unfold sendResponse, publication.
  destruct (getResponseQueueName cfg) as [|n0 name].
  - exists []. rewrite List.app_nil_r. auto.
  - unfold try_catch, bind, call, ret.
    destruct (getQueueUrl_answer env h (n0 :: name)) as [[[|u rl]|]|e].
    1, 3, 4: (exists [GetQueueUrl (n0 :: name)]; split; [reflexivity | auto]).
    destruct (sendMessage_answer env (h ++ [GetQueueUrl (n0 :: name)]) (u :: rl)
                (JSON.stringify_object (response_object cid result)) cid)
      as [[]|e];
      (eexists; split;
       [rewrite <- List.app_assoc; reflexivity
       | right; eexists _, _; reflexivity]).
Qed.

Lemma respond_trace (msg : Message) (result : ExecutionResult) (h : history) :
  exists t,
    match correlationId_of msg with
    | _ :: _ => sendResponse cfg env (correlationId_of msg) result
    | [] => ret tt
    end h = (Normal tt, h ++ t)
    /\ published cfg msg result t.
Proof.
  unfold published. destruct (correlationId_of msg) as [|c cid].
  - exists []. unfold ret. rewrite List.app_nil_r. auto.
  - apply sendResponse_trace.
Qed.

(** The runs of [processMessage], case by case. *)
Lemma processMessage_cases (msg : Message) (h : history) :
  match parseMessage JSON_parse (or_string (Body msg) []) with
  | None => processMessage JSON_parse cfg env msg h = (Normal tt, h)
  | Some cmd =>
      if isCommandAllowed (command cmd) then
        if log_raises env cmd then
          exists e, processMessage JSON_parse cfg env msg h = (Throw e, h)
        else
          exists result t,
            executeCommand env cmd h = (Normal result, h ++ spawn_events cmd)
            /\ processMessage JSON_parse cfg env msg h
               = (Normal tt,
                  h ++ spawn_events cmd ++ t
                    ++ acknowledgment cfg (ReceiptHandle msg))
            /\ published cfg msg result t
      else
        exists t,
          processMessage JSON_parse cfg env msg h
          = (Normal tt, h ++ t ++ acknowledgment cfg (ReceiptHandle msg))
          /\ published cfg msg (failure (rejection_text cmd)) t
  end.
Proof.
  unfold processMessage.
  destruct (parseMessage JSON_parse (or_string (Body msg) [])) as [cmd|];
    [|reflexivity].
  destruct (isCommandAllowed (command cmd)); cbn [negb]; unfold bind.
  - pose proof (log_executing_run env cmd h) as R.
    destruct (log_raises env cmd); [destruct R as [e ->]; eauto|].
    rewrite R. destruct (executeCommand_trace env cmd h) as [result X].
    rewrite X. exists result.
    destruct (respond_trace msg result (h ++ spawn_events cmd)) as (t & E & P).
    exists t. rewrite E, delete_message_run.
    rewrite <- !List.app_assoc. auto.
  - destruct (respond_trace msg (failure (rejection_text cmd)) h) as (t & E & P).
    exists t. unfold failure in E. rewrite E, delete_message_run.
    rewrite <- !List.app_assoc. auto.
Qed.

Lemma published_shape (msg : Message) (result : ExecutionResult) (t : history) :
  published cfg msg result t ->
  t = []
  \/ (correlationId_of msg <> []
      /\ getResponseQueueName cfg <> []
      /\ (t = [GetQueueUrl (getResponseQueueName cfg)]
          \/ exists u rl,
               t = [GetQueueUrl (getResponseQueueName cfg);
                    SendMessage (u :: rl)
                      (JSON.stringify_object
                         (response_object (correlationId_of msg) result))
                      (correlationId_of msg)])).
Proof.
  unfold published, publication.
  destruct (correlationId_of msg) as [|c cid]; [auto|].
  destruct (getResponseQueueName cfg) as [|n name]; [auto|].
  intros H. right. split; [discriminate|]. split; [discriminate | exact H].
Qed.

Lemma acknowledgment_shape (receiptHandle : option jsstring) :
  acknowledgment cfg receiptHandle = []
  \/ exists c r,
       receiptHandle = Some (c :: r)
       /\ acknowledgment cfg receiptHandle
          = [DeleteMessage (QUEUE_URL cfg) (c :: r)].
Proof. destruct receiptHandle as [[|c r]|]; cbn; eauto. Qed.

Lemma spawn_events_shape (cmd : CommandMessage) :
  spawn_events cmd = []
  \/ exists argv,
       argv_of cmd = Some argv /\ spawn_events cmd = [Spawn argv (cwd cmd)].
Proof. unfold spawn_events. destruct (argv_of cmd); eauto. Qed.

(** X12.  At most one process is started for a message, before anything is
    answered or deleted, and only for a descriptor that the message parsed
    to and that passed the gate. *)
Theorem spawns_only_approved (msg : Message) (h : history) :
  exists s t,
    snd (processMessage JSON_parse cfg env msg h) = h ++ s ++ t
    /\ List.existsb is_spawn t = false
    /\ (s = []
        \/ exists cmd argv,
             parseMessage JSON_parse (or_string (Body msg) []) = Some cmd
             /\ isCommandAllowed (command cmd) = true
             /\ argv_of cmd = Some argv
             /\ s = [Spawn argv (cwd cmd)]).
Proof.
  pose proof (processMessage_cases msg h) as C.
  destruct (parseMessage JSON_parse (or_string (Body msg) [])) as [cmd|].
  - destruct (isCommandAllowed (command cmd)) eqn:A.
    + destruct (log_raises env cmd).
      * destruct C as [e ->]. exists [], []. rewrite List.app_nil_r. auto.
      * destruct C as (result & t & _ & -> & P).
        exists (spawn_events cmd), (t ++ acknowledgment cfg (ReceiptHandle msg)).
        split; [reflexivity|]. split.
        -- rewrite List.existsb_app.
           destruct (published_shape _ _ _ P) as [-> | (_ & _ & [-> | (u & rl & ->)])];
             destruct (acknowledgment_shape (ReceiptHandle msg))
               as [-> | (c & r & _ & ->)]; reflexivity.
        -- destruct (spawn_events_shape cmd) as [-> | (argv & V & ->)]; [auto|].
           right. exists cmd, argv. auto.
    + destruct C as (t & -> & P).
      exists [], (t ++ acknowledgment cfg (ReceiptHandle msg)).
      split; [reflexivity|]. split; [|auto].
      rewrite List.existsb_app.
      destruct (published_shape _ _ _ P) as [-> | (_ & _ & [-> | (u & rl & ->)])];
        destruct (acknowledgment_shape (ReceiptHandle msg))
          as [-> | (c & r & _ & ->)]; reflexivity.
  - rewrite C. exists [], []. rewrite List.app_nil_r. auto.
Qed.

(** X13.  [processMessage] throws exactly when the message parses, passes
    the gate and has arguments that cannot be written to the log: arguments
    that are no array, or an array that holds, at any depth the stack
    allows, an object with a [toString] member of its own, or arrays nested
    deeper than the stack allows.  It has then made no call at all: nothing
    was run, answered or deleted. *)
Theorem processMessage_throws_iff (msg : Message) (h : history) :
  ((exists e, fst (processMessage JSON_parse cfg env msg h) = Throw e) <->
   exists cmd,
     parseMessage JSON_parse (or_string (Body msg) []) = Some cmd
     /\ isCommandAllowed (command cmd) = true
     /\ log_raises env cmd = true)
  /\ (forall e h',
        processMessage JSON_parse cfg env msg h = (Throw e, h') -> h' = h).
Proof.
  pose proof (processMessage_cases msg h) as C.
  destruct (parseMessage JSON_parse (or_string (Body msg) [])) as [cmd|].
  - destruct (isCommandAllowed (command cmd)) eqn:A.
    + destruct (log_raises env cmd) eqn:L.
      * destruct C as [e ->]. split; [|congruence].
        split; [intros _; exists cmd; auto | intros _; exists e; reflexivity].
      * destruct C as (result & t & _ & -> & _). split; [|discriminate].
        split; [intros [e H]; discriminate|].
        intros (cmd' & E & _ & L'). congruence.
    + destruct C as (t & -> & _). split; [|discriminate].
      split; [intros [e H]; discriminate|].
      intros (cmd' & E & A' & _). congruence.
  - rewrite C. split; [|discriminate].
    split; [intros [e H]; discriminate | intros (cmd' & E & _); discriminate].
Qed.


(** X15.  Without a correlation id on the message, or without a response
    queue, [processMessage] makes no call for a response: neither the lookup
    nor the send. *)
Theorem no_response_without_address (msg : Message) (h : history) :
  correlationId_of msg = [] \/ getResponseQueueName cfg = [] ->
  exists t,
    snd (processMessage JSON_parse cfg env msg h) = h ++ t
    /\ List.existsb is_lookup t = false
    /\ List.existsb is_send t = false.
Proof.
  intros N.
  assert (Q : forall result t, published cfg msg result t -> t = []).
  { intros result t P.
    destruct (published_shape _ _ _ P) as [-> | (A & B & _)]; [reflexivity|].
    destruct N; contradiction. }
  pose proof (processMessage_cases msg h) as C.
  destruct (parseMessage JSON_parse (or_string (Body msg) [])) as [cmd|].
  - destruct (isCommandAllowed (command cmd)) eqn:A.
    + destruct (log_raises env cmd).
      * destruct C as [e ->]. exists []. rewrite List.app_nil_r. auto.
      * destruct C as (result & t & _ & -> & P). rewrite (Q _ _ P).
        eexists. split; [reflexivity|].
        destruct (spawn_events_shape cmd) as [-> | (argv & _ & ->)];
          destruct (acknowledgment_shape (ReceiptHandle msg))
            as [-> | (c & r & _ & ->)]; split; reflexivity.
    + destruct C as (t & -> & P). rewrite (Q _ _ P).
      eexists. split; [reflexivity|].
      destruct (acknowledgment_shape (ReceiptHandle msg))
        as [-> | (c & r & _ & ->)]; split; reflexivity.
  - rewrite C. exists []. rewrite List.app_nil_r. auto.
Qed.

(** X16.  For a command that passed the gate and could be logged, a
    response that is sent carries the correlation id of the message, and its
    body reads back as the result of the execution: its [success], its exit
    code, its output and its error output. *)
Theorem response_reports_execution
  (msg : Message) (cmd : CommandMessage) (h : history) :
  parseMessage JSON_parse (or_string (Body msg) []) = Some cmd ->
  isCommandAllowed (command cmd) = true ->
  log_raises env cmd = false ->
  exists result t,
    executeCommand env cmd h = (Normal result, h ++ spawn_events cmd)
    /\ processMessage JSON_parse cfg env msg h = (Normal tt, h ++ t)
    /\ forall url body cid,
         List.In (SendMessage url body cid) t ->
         cid = correlationId_of msg
         /\ cid <> []
         /\ read_response body
            = Some {| r_success := success result;
                      r_exitCode := exitCode result;
                      r_stdout := output result;
                      r_stderr := or_string (error result) [] |}.
Proof.
  intros P A L. pose proof (processMessage_cases msg h) as C.
  rewrite P, A, L in C. destruct C as (result & t & X & E & Pb).
  exists result. eexists. split; [exact X|]. split; [exact E|].
  intros url body cid H.
  destruct (spawn_events_shape cmd) as [S | (argv & _ & S)]; rewrite S in H;
    destruct (acknowledgment_shape (ReceiptHandle msg))
      as [K | (c & r & _ & K)]; rewrite K in H;
    destruct (published_shape _ _ _ Pb)
      as [-> | (N1 & _ & [-> | (u & rl & ->)])];
    cbn in H;
    repeat (destruct H as [H|H]; try discriminate H);
    try contradiction;
    injection H as <- <- <-;
    (split; [reflexivity|]; split; [exact N1|]; apply read_response_object).
Qed.

Lemma spawn_in_run (msg : Message) (cmd : CommandMessage)
  (result : ExecutionResult) (t : history) (argv : list jsvalue)
  (d : option jsvalue) :
  published cfg msg result t ->
  List.In (Spawn argv d)
    (spawn_events cmd ++ t ++ acknowledgment cfg (ReceiptHandle msg)) ->
  argv_of cmd = Some argv /\ d = cwd cmd.
Proof.
  intros P H.
  destruct (spawn_events_shape cmd) as [S | (argv' & V & S)]; rewrite S in H;
    destruct (acknowledgment_shape (ReceiptHandle msg))
      as [K | (c & r & _ & K)]; rewrite K in H;
    destruct (published_shape _ _ _ P)
      as [-> | (_ & _ & [-> | (u & rl & ->)])];
    cbn in H;
    repeat (destruct H as [H|H]; try discriminate H);
    try contradiction;
    injection H as <- <-; auto.
Qed.

Lemma argv_of_head (cmd : CommandMessage) (argv : list jsvalue) :
  argv_of cmd = Some argv ->
  exists rest, argv = JStr (List.hd [] (words (command cmd))) :: rest.
Proof.
  unfold argv_of; cbv zeta. rewrite hd_split_ws_trim.
  destruct (negb (truthy (args cmd))); [intros H; injection H as <-; eauto|].
  destruct (args cmd) as [[ | | | | | ]|]; try discriminate;
    intros H; injection H as <-; eauto.
Qed.

Lemma argv_of_tokens (c : jsstring) (rest : list jsstring) :
  argv_of (command_of_tokens c rest)
  = Some (JStr (List.hd [] (words c)) :: List.map JStr rest).
Proof.
  unfold argv_of, command_of_tokens; cbv zeta.
  cbn [command args truthy negb]. rewrite hd_split_ws_trim. reflexivity.
Qed.

(** X17.  A message that is a JSON string or plain text never makes
    [processMessage] throw, and a process it starts gets words as its
    arguments, the command among them, and no working directory. *)
Theorem plain_message_never_throws (msg : Message) (h : history) :
  (forall members, JSON_parse (or_string (Body msg) []) <> Some (JObj members)) ->
  exists t,
    processMessage JSON_parse cfg env msg h = (Normal tt, h ++ t)
    /\ forall argv d,
         List.In (Spawn argv d) t ->
         d = None
         /\ exists tokens,
              argv = List.map JStr tokens /\ List.Forall is_token tokens.
Proof.
  intros N. pose proof (processMessage_cases msg h) as C.
  destruct (parseMessage JSON_parse (or_string (Body msg) [])) as [cmd|] eqn:P.
  - destruct (parseMessage_plain_words _ _ _ P N) as [s Ec].
    assert (L : log_raises env cmd = false).
    { apply (log_raises_strings env cmd (List.tl (words s))). rewrite Ec. reflexivity. }
    destruct (isCommandAllowed (command cmd)) eqn:A.
    + rewrite L in C. destruct C as (result & t & _ & E & Pb).
      eexists. split; [exact E|]. intros argv d H.
      destruct (spawn_in_run _ _ _ _ _ _ Pb H) as [V ->].
      split; [rewrite Ec; reflexivity|].
      exists (words s). split; [|apply words_tokens].
      subst cmd. rewrite argv_of_tokens, hd_words_idem in V.
      injection V as <-.
      destruct (words s) as [|w ws]; [discriminate A | reflexivity].
    + destruct C as (t & E & Pb).
      eexists. split; [exact E|]. intros argv d H. exfalso.
      destruct (acknowledgment_shape (ReceiptHandle msg))
        as [K | (c & r & _ & K)]; rewrite K in H;
        destruct (published_shape _ _ _ Pb)
          as [-> | (_ & _ & [-> | (u & rl & ->)])];
        cbn in H;
        repeat (destruct H as [H|H]; try discriminate H); contradiction.
  - exists []. rewrite List.app_nil_r. split; [exact C | intros argv d []].
Qed.

(** X18.  When the command of the descriptor holds no whitespace, the
    program that is started is that command, and its last segment is on the
    allowlist. *)
Theorem token_command_runs_itself
  (msg : Message) (cmd : CommandMessage) (h : history) :
  parseMessage JSON_parse (or_string (Body msg) []) = Some cmd ->
  List.existsb is_ws (command cmd) = false ->
  exists t,
    snd (processMessage JSON_parse cfg env msg h) = h ++ t
    /\ forall argv d,
         List.In (Spawn argv d) t ->
         List.hd_error argv = Some (JStr (command cmd))
         /\ List.In (last_segment (command cmd)) ALLOWLIST.
Proof.
  intros P W. pose proof (processMessage_cases msg h) as C. rewrite P in C.
  destruct (isCommandAllowed (command cmd)) eqn:A.
  - destruct (log_raises env cmd).
    + destruct C as [e ->]. exists []. rewrite List.app_nil_r.
      split; [reflexivity | intros argv d []].
    + destruct C as (result & t & _ & -> & Pb).
      eexists. split; [reflexivity|]. intros argv d H.
      destruct (spawn_in_run _ _ _ _ _ _ Pb H) as [V _].
      destruct (argv_of_head _ _ V) as [rest ->].
      rewrite (hd_words_no_ws _ W). split; [reflexivity|].
      exact (isCommandAllowed_no_ws _ W A).
  - destruct C as (t & -> & Pb).
    eexists. split; [reflexivity|]. intros argv d H. exfalso.
    destruct (acknowledgment_shape (ReceiptHandle msg))
      as [K | (c & r & _ & K)]; rewrite K in H;
      destruct (published_shape _ _ _ Pb)
        as [-> | (_ & _ & [-> | (u & rl & ->)])];
      cbn in H;
      repeat (destruct H as [H|H]; try discriminate H); contradiction.
Qed.

(** Every call of a run of [processMessage] is caused by its message. *)
Lemma processMessage_caused (msg : Message) (h : history) :
  exists c t,
    processMessage JSON_parse cfg env msg h = (c, h ++ t)
    /\ forall e, List.In e t -> caused_by JSON_parse cfg msg e.
Proof.
  pose proof (processMessage_cases msg h) as C.
  destruct (parseMessage JSON_parse (or_string (Body msg) [])) as [cmd|] eqn:P.
  - destruct (isCommandAllowed (command cmd)) eqn:A.
    + destruct (log_raises env cmd).
      * destruct C as [e ->]. exists (Throw e), []. rewrite List.app_nil_r.
        split; [reflexivity | intros e' []].
      * destruct C as (result & t & _ & -> & Pb).
        eexists _, _. split; [reflexivity|]. intros e H.
        destruct (spawn_events_shape cmd) as [S | (argv & V & S)]; rewrite S in H;
          destruct (acknowledgment_shape (ReceiptHandle msg))
            as [K | (c & r & R & K)]; rewrite K in H;
          destruct (published_shape _ _ _ Pb)
            as [-> | (_ & _ & [-> | (u & rl & ->)])];
          cbn in H;
          repeat (destruct H as [<-|H]);
          try contradiction;
          cbn; try rewrite P; eauto 6.
    + destruct C as (t & -> & Pb).
      eexists _, _. split; [reflexivity|]. intros e H.
      destruct (acknowledgment_shape (ReceiptHandle msg))
        as [K | (c & r & R & K)]; rewrite K in H;
        destruct (published_shape _ _ _ Pb)
          as [-> | (_ & _ & [-> | (u & rl & ->)])];
        cbn in H;
        repeat (destruct H as [<-|H]);
        try contradiction;
        cbn; eauto.
  - rewrite C. exists (Normal tt), []. rewrite List.app_nil_r.
    split; [reflexivity | intros e []].
Qed.

End PipelineProperties.

Lemma response_reports_execution_witness :
  exists result t,
    executeCommand Sample.env
      {| command := lit "echo";
         args := Some (JArr [JStr (lit "hello")]);
         cwd := None |} []
    = (Normal result,
       [Spawn [JStr (lit "echo"); JStr (lit "hello")] None])
    /\ processMessage JSON.parse Sample.cfg Sample.env
         (Sample.message (Sample.quoted "echo hello")) []
       = (Normal tt, t).
Proof.
  destruct (response_reports_execution JSON.parse Sample.cfg Sample.env
              (Sample.message (Sample.quoted "echo hello"))
              {| command := lit "echo";
                 args := Some (JArr [JStr (lit "hello")]);
                 cwd := None |}
              [] eq_refl eq_refl eq_refl) as (result & t & X & E & _).
  exists result, t. split; assumption.
Defined.

Lemma no_response_without_address_witness :
  exists t,
    snd (processMessage JSON.parse Sample.cfg Sample.env
           {| Body := Some (Sample.quoted "echo hello");
              ReceiptHandle := Some (lit "receipt-1");
              CorrelationIdAttribute := None;
              MessageId := None |} [])
    = t
    /\ List.existsb is_send t = false.
Proof.
  destruct (no_response_without_address JSON.parse Sample.cfg Sample.env
              {| Body := Some (Sample.quoted "echo hello");
                 ReceiptHandle := Some (lit "receipt-1");
                 CorrelationIdAttribute := None;
                 MessageId := None |}
              [] (or_introl eq_refl)) as (t & E & _ & S).
  exists t. split; assumption.
Defined.

Lemma token_command_runs_itself_witness :
  exists t,
    snd (processMessage JSON.parse Sample.cfg Sample.env
           (Sample.message (Sample.quoted "/usr/bin/git status")) [])
    = t
    /\ forall argv d,
         List.In (Spawn argv d) t ->
         List.hd_error argv = Some (JStr (lit "/usr/bin/git"))
         /\ List.In (lit "git") ALLOWLIST.
Proof.
  destruct (token_command_runs_itself JSON.parse Sample.cfg Sample.env
              (Sample.message (Sample.quoted "/usr/bin/git status"))
              {| command := lit "/usr/bin/git";
                 args := Some (JArr [JStr (lit "status")]);
                 cwd := None |}
              [] eq_refl eq_refl) as (t & E & H).
  exists t. split; assumption.
Defined.

Lemma plain_message_never_throws_witness :
  exists t,
    processMessage JSON.parse Sample.cfg Sample.env
      (Sample.message (lit "echo hello")) []
    = (Normal tt, t).
Proof.
  destruct (plain_message_never_throws JSON.parse Sample.cfg Sample.env
              (Sample.message (lit "echo hello")) [])
    as (t & E & _).
  - intros members. discriminate.
  - exists t. exact E.
Defined.

(** ** Polling loop *)

Section LoopProperties.

Variable JSON_parse : jsstring -> option jsvalue.
Variable cfg : config.
Variable env : environment.

Lemma process_all_caused (messages : list Message) (h : history) :
  exists c t,
    process_all JSON_parse cfg env messages h = (c, h ++ t)
    /\ forall e,
         List.In e t ->
         exists msg, List.In msg messages /\ caused_by JSON_parse cfg msg e.
Proof.
  revert h. induction messages as [|m rest IH]; intros h.
  - exists (Normal tt), []. rewrite List.app_nil_r.
    split; [reflexivity | intros e []].
  - cbn [process_all]. unfold bind.
    destruct (processMessage_caused JSON_parse cfg env m h) as (c & t & -> & Hc).
    destruct c as [[]|e].
    + destruct (IH (h ++ t)) as (c' & t' & -> & Hc').
      exists c', (t ++ t'). rewrite List.app_assoc. split; [reflexivity|].
      intros e H. apply List.in_app_or in H as [H|H].
      * exists m. split; [left; reflexivity | exact (Hc e H)].
      * destruct (Hc' e H) as (msg & I & K). exists msg. split; [right|]; assumption.
    + exists (Throw e), t. split; [reflexivity|].
      intros e' H. exists m. split; [left; reflexivity | exact (Hc e' H)].
Qed.

Lemma pollQueue_caused (response : poll_answer) (h : history) :
  exists t,
    pollQueue JSON_parse cfg env response h = (Normal tt, h ++ t)
    /\ forall e,
         List.In e t ->
         exists messages msg,
           response = Normal (Some messages)
           /\ List.In msg messages
           /\ caused_by JSON_parse cfg msg e.
Proof.
  unfold pollQueue, try_catch.
  destruct response as [[[|m rest]|]|e0].
  2: { destruct (process_all_caused (m :: rest) h) as (c & t & -> & Hc).
       exists t. split; [destruct c as [[]|e]; reflexivity|].
       intros e H. destruct (Hc e H) as (msg & I & K). eauto. }
  all: exists []; rewrite List.app_nil_r; split; [reflexivity | intros e []].
Qed.

Lemma poll_rounds_caused (answers : list poll_answer) (h : history) :
  exists t,
    poll_rounds JSON_parse cfg env answers h = (Normal tt, h ++ t)
    /\ forall e,
         List.In e t ->
         exists messages msg,
           List.In (Normal (Some messages)) answers
           /\ List.In msg messages
           /\ caused_by JSON_parse cfg msg e.
Proof.
  revert h. induction answers as [|a rest IH]; intros h.
  - exists []. rewrite List.app_nil_r. split; [reflexivity | intros e []].
  - cbn [poll_rounds]. unfold bind.
    destruct (pollQueue_caused a h) as (t & -> & Hc).
    destruct (IH (h ++ t)) as (t' & -> & Hc').
    exists (t ++ t'). rewrite List.app_assoc. split; [reflexivity|].
    intros e H. apply List.in_app_or in H as [H|H].
    + destruct (Hc e H) as (messages & msg & -> & I & K).
      exists messages, msg. split; [left; reflexivity | auto].
    + destruct (Hc' e H) as (messages & msg & J & I & K).
      exists messages, msg. split; [right; exact J | auto].
Qed.

(** X19.  [pollQueue] never throws: a failed receive and an exception of
    [processMessage] end the poll and nothing more.  A poll whose receive
    fails, or brings no message, makes no call. *)
Theorem pollQueue_never_throws (response : poll_answer) (h : history) :
  exists t,
    pollQueue JSON_parse cfg env response h = (Normal tt, h ++ t)
    /\ ((forall m rest, response <> Normal (Some (m :: rest))) -> t = []).
Proof.
  destruct (pollQueue_caused response h) as (t & E & Hc).
  exists t. split; [exact E|]. intros N.
  destruct t as [|e t]; [reflexivity|]. exfalso.
  destruct (Hc e (or_introl eq_refl)) as ([|m rest] & msg & R & I & _).
  - destruct I.
  - exact (N m rest R).
Qed.

Lemma process_all_poisoned
  (pre post : list Message) (m : Message) (cmd : CommandMessage) (h : history) :
  parseMessage JSON_parse (or_string (Body m) []) = Some cmd ->
  isCommandAllowed (command cmd) = true ->
  log_raises env cmd = true ->
  exists e,
    process_all JSON_parse cfg env (pre ++ m :: post) h
    = (Throw e, snd (process_all JSON_parse cfg env pre h)).
Proof.
  intros P A L. revert h. induction pre as [|a pre IH]; intros h.
  - cbn [app process_all]. unfold bind.
    destruct (processMessage_raises JSON_parse cfg env m cmd h P A L) as [e ->].
    exists e. reflexivity.
  - cbn [app process_all]. unfold bind.
    destruct (processMessage JSON_parse cfg env a h) as [[u|e] h'].
    + apply IH.
    + exists e. reflexivity.
Qed.

(** X20.  A message that makes [processMessage] throw ends the poll it
    came in: the messages after it in the same poll are not processed, and
    it is itself neither run, nor answered, nor deleted. *)
Theorem poison_message_ends_poll
  (pre post : list Message) (m : Message) (cmd : CommandMessage) (h : history) :
  parseMessage JSON_parse (or_string (Body m) []) = Some cmd ->
  isCommandAllowed (command cmd) = true ->
  log_raises env cmd = true ->
  pollQueue JSON_parse cfg env (Normal (Some (pre ++ m :: post))) h
  = (Normal tt, snd (process_all JSON_parse cfg env pre h)).
Proof.
  intros P A L.
  destruct (process_all_poisoned pre post m cmd h P A L) as [e E].
  unfold pollQueue, try_catch.
  destruct (pre ++ m :: post) as [|x l] eqn:X.
  - destruct pre; discriminate X.
  - rewrite E. reflexivity.
Qed.


(** X22.  Whatever the worker does, it does for a message it received: a
    process it starts is the one of a descriptor that a received message
    parsed to and that passed the gate; a deletion is of the receipt handle
    of a received message, on the command queue; a response carries the
    correlation id of a received message. *)
Theorem worker_acts_on_received (answers : list poll_answer) (h : history) :
  exists t,
    snd (main JSON_parse cfg env answers h) = h ++ t
    /\ forall e,
         List.In e t ->
         exists messages msg,
           List.In (Normal (Some messages)) answers
           /\ List.In msg messages
           /\ caused_by JSON_parse cfg msg e.
Proof.
  unfold main. destruct (QUEUE_URL cfg) as [|u rl].
  - exists []. unfold ret. rewrite List.app_nil_r.
    split; [reflexivity | intros e []].
  - unfold bind. destruct (poll_rounds_caused answers h) as (t & -> & Hc).
    exists t. split; [reflexivity | exact Hc].
Qed.

End LoopProperties.

Lemma poison_message_ends_poll_witness :
  pollQueue JSON.parse Sample.cfg Sample.env
    (Normal (Some [Sample.message Sample.body_ls_5;
                   Sample.message (Sample.quoted "echo hello")])) []
  = (Normal tt, []).
Proof.
  apply (poison_message_ends_poll JSON.parse Sample.cfg Sample.env
           [] [Sample.message (Sample.quoted "echo hello")]
           (Sample.message Sample.body_ls_5)
           {| command := lit "ls"; args := Some (JNum false 5 0); cwd := None |}
           []);
    reflexivity.
Defined.

(** ** The lifecycle of [src/index.ts] *)

Lemma index_ts_executeCommand_trace (env : environment) (cmd : CommandMessage)
  (h : history) :
  exists result t,
    IndexTs.executeCommand env cmd h = (Normal result, h ++ t)
    /\ (t = [] \/ exists rest, t = [Spawn (JStr (command cmd) :: rest) (cwd cmd)]).
Proof.
  unfold IndexTs.executeCommand, try_catch, bind.
  set (a := match args cmd with
            | Some a => if truthy (args cmd) then a else JArr []
            | None => JArr []
            end).
  assert (S : (exists rest, spread env a h = (Normal rest, h))
              \/ exists e, spread env a h = (Throw e, h)).
  { unfold spread. destruct a; unfold ret, raise; eauto. }
  destruct S as [[rest ->] | [e ->]].
  - unfold call, ret.
    destruct (spawn_answer env h (JStr (command cmd) :: rest) (cwd cmd));
      (eexists _, [_]; split; [reflexivity | right; eexists; reflexivity]).
  - unfold ret. eexists _, []. rewrite List.app_nil_r. auto.
Qed.

(** X23.  The worker of [src/index.ts] makes, for one message, at most
    one call to [Bun.spawn] and then at most one deletion, of the message
    itself, and no other call.  The program it starts is the command of the
    descriptor as it stands, and the last segment of that command is on its
    allowlist. *)
Theorem index_ts_runs_allowlisted
  (JSON_parse : jsstring -> option jsvalue) (env : environment) (cfg : config)
  (msg : Message) (h : history) :
  exists s d,
    snd (IndexTs.processMessage JSON_parse env cfg msg h) = h ++ s ++ d
    /\ (s = []
        \/ exists cmd rest,
             IndexTs.parseMessage JSON_parse (or_string (Body msg) []) = Some cmd
             /\ List.In (last_segment (command cmd)) IndexTs.ALLOWLIST
             /\ s = [Spawn (JStr (command cmd) :: rest) (cwd cmd)])
    /\ (d = []
        \/ exists c r,
             ReceiptHandle msg = Some (c :: r)
             /\ d = [DeleteMessage (QUEUE_URL cfg) (c :: r)]).
Proof.
  assert (Ack : forall d, d = acknowledgment cfg (ReceiptHandle msg) ->
                  d = []
                  \/ exists c r,
                       ReceiptHandle msg = Some (c :: r)
                       /\ d = [DeleteMessage (QUEUE_URL cfg) (c :: r)]).
  { intros d ->. destruct (ReceiptHandle msg) as [[|c r]|]; cbn; eauto. }
  unfold IndexTs.processMessage.
  destruct (IndexTs.parseMessage JSON_parse (or_string (Body msg) []))
    as [cmd|] eqn:P.
  - destruct (IndexTs.isCommandAllowed (command cmd)) eqn:A; cbn [negb].
    + unfold bind. pose proof (log_executing_run env cmd h) as R.
      destruct (log_raises env cmd).
      * destruct R as [e ->]. exists [], []. rewrite List.app_nil_r. auto.
      * rewrite R.
        destruct (index_ts_executeCommand_trace env cmd h)
          as (result & s & -> & S).
        rewrite delete_message_run.
        exists s, (acknowledgment cfg (ReceiptHandle msg)).
        rewrite List.app_assoc. split; [reflexivity|]. split; [|auto].
        destruct S as [-> | [rest ->]]; [auto|].
        right. exists cmd, rest. split; [reflexivity|].
        split; [exact (index_ts_gate_member _ A) | reflexivity].
    + rewrite delete_message_run.
      exists [], (acknowledgment cfg (ReceiptHandle msg)). auto.
  - exists [], []. unfold ret. rewrite List.app_nil_r. auto.
Qed.

Lemma index_ts_executor_agrees (env : environment) (cmd : CommandMessage)
  (h : history) :
  truthy (args cmd) = true ->
  List.hd [] (words (command cmd)) = command cmd ->
  exists r,
    IndexTs.executeCommand env cmd h = (Normal r, snd (executeCommand env cmd h)).
Proof.
  intros T W. rewrite executeCommand_run.
  unfold argv_of, IndexTs.executeCommand, try_catch, bind; cbv zeta.
  rewrite hd_split_ws_trim, W, T. cbn [negb].
  destruct (args cmd) as [[ | b | neg m e | s | l | ms]|];
    try discriminate T;
    unfold spread, call, ret, raise; cbn [snd];
    try (eexists; reflexivity);
    destruct (spawn_answer env h _ (cwd cmd)); eexists; reflexivity.
Qed.

(** X24.  On a message that the worker of [src/index.ts] executes, whose
    command holds no whitespace, the worker with the response queue makes
    the same calls and ends the same way, when it has no response to send:
    the message has no correlation id, or there is no response queue. *)
Theorem workers_agree
  (JSON_parse : jsstring -> option jsvalue) (cfg : config) (env : environment)
  (msg : Message) (cmd : CommandMessage) (h : history) :
  IndexTs.parseMessage JSON_parse (or_string (Body msg) []) = Some cmd ->
  IndexTs.isCommandAllowed (command cmd) = true ->
  List.existsb is_ws (command cmd) = false ->
  correlationId_of msg = [] \/ getResponseQueueName cfg = [] ->
  processMessage JSON_parse cfg env msg h
  = IndexTs.processMessage JSON_parse env cfg msg h.
Proof.
  intros P A W N.
  assert (P' : parseMessage JSON_parse (or_string (Body msg) []) = Some cmd).
  { revert P. unfold IndexTs.parseMessage, parseMessage.
    destruct (JSON_parse (or_string (Body msg) [])) as [parsed|]; [|discriminate].
    destruct parsed; try (intros H; exact H); cbn [get_property].
    discriminate. }
  assert (A' : isCommandAllowed (command cmd) = true)
    by (apply isCommandAllowed_member, index_ts_ALLOWLIST_incl,
          index_ts_gate_member, A).
  unfold processMessage, IndexTs.processMessage.
  rewrite P, P', A, A'. cbn [negb]. unfold bind.
  destruct (log_executing env cmd h) as [[[]|e] h1] eqn:L; [|reflexivity].
  assert (H1 : h1 = h).
  { pose proof (log_executing_run env cmd h) as R.
    destruct (log_raises env cmd); [destruct R as [e R]|]; congruence. }
  subst h1.
  destruct (index_ts_executor_agrees env cmd h
              (parseMessage_args_truthy _ _ _ P') (hd_words_no_ws _ W))
    as [r ->].
  destruct (executeCommand_trace env cmd h) as [result ->]. cbn [snd].
  destruct (respond_trace cfg env msg result (h ++ spawn_events cmd))
    as (t & -> & Pb).
  destruct (published_shape _ _ _ _ Pb) as [-> | (C1 & C2 & _)].
  - rewrite List.app_nil_r. reflexivity.
  - destruct N; contradiction.
Qed.

Lemma workers_agree_witness :
  processMessage JSON.parse Sample.cfg Sample.env
    {| Body := Some (Sample.quoted "/usr/bin/git status");
       ReceiptHandle := Some (lit "receipt-1");
       CorrelationIdAttribute := None;
       MessageId := None |} []
  = IndexTs.processMessage JSON.parse Sample.env Sample.cfg
      {| Body := Some (Sample.quoted "/usr/bin/git status");
         ReceiptHandle := Some (lit "receipt-1");
         CorrelationIdAttribute := None;
         MessageId := None |} [].
Proof.
  apply (workers_agree JSON.parse Sample.cfg Sample.env
           {| Body := Some (Sample.quoted "/usr/bin/git status");
              ReceiptHandle := Some (lit "receipt-1");
              CorrelationIdAttribute := None;
              MessageId := None |}
           {| command := lit "/usr/bin/git";
              args := Some (JArr [JStr (lit "status")]);
              cwd := None |}
           []);
    [reflexivity | reflexivity | reflexivity | left; reflexivity].
Defined.
